(** * Textbook RSA (src/main.py): a shallow embedding and its properties

    Python integers are unbounded, so every number is a [Z].  Python's
    [%] and [//] are the floor operations, which is what [Z.modulo] and
    [Z.div] compute for a non-zero divisor of either sign; a zero divisor
    raises [ZeroDivisionError].  A [str] is the list of its code points.

    Three limits of the interpreter are part of the model, each where the
    program meets it: the recursion limit in the two recursive functions
    ([RecursionError]), the limit of 4300 digits on the conversion of an
    integer to text in the f-strings ([ValueError]), and the conversion of
    the argument of [random.getrandbits] to a C [int]
    ([OverflowError]). *)

From Stdlib Require Import ZArith List Lia Bool String Znumtheory Zmod.ZmodInv.
From Stdlib Require DecimalString.
From ExtLib Require Import Structures.Monad.
From Equations Require Import Equations.
Import ListNotations.
Import MonadNotation.
Local Open Scope Z_scope.
Local Open Scope monad_scope.

(** ** Outcomes of a call *)

(** The built-in exceptions the program can raise. *)
Inductive exn : Set :=
| ZeroDivisionError
| ValueError
| OverflowError
| RecursionError.

(** A call returns a value, raises, or does not come back: it is still
    inside a [while True] loop when the iteration budget given to the
    model is used up, or inside a loop that cannot end. *)
Inductive outcome (A : Type) : Type :=
| Ret (a : A)
| Raise (e : exn)
| Spin.
Arguments Ret {A} a.
Arguments Raise {A} e.
Arguments Spin {A}.

#[export] Instance Monad_outcome : Monad outcome :=
  {| ret := @Ret;
     bind := fun _ _ c k =>
       match c with
       | Ret a => k a
       | Raise e => Raise e
       | Spin => Spin
       end |}.

(** ** Python primitives *)

(** [a % b] *)
Definition py_mod (a b : Z) : outcome Z :=
  if b =? 0 then Raise ZeroDivisionError else Ret (a mod b).

(** [chr(i)]: the one-character string of code point [i], defined on
    [0, 0x10FFFF]; [ValueError] elsewhere. *)
Definition chr (i : Z) : outcome (list Z) :=
  if (0 <=? i) && (i <=? 1114111) then Ret [i] else Raise ValueError.

(** [ord(c)] of a one-character string. *)
Definition ord (c : Z) : Z := c.

(** The code points of a well-formed [str]. *)
Definition is_str (s : list Z) : Prop :=
  Forall (fun c => 0 <= c <= 1114111) s.

(** ** modular_exponentiation *)

(** The [while exponent > 0] loop; [exponent % 2] and [exponent // 2]
    have the literal divisor 2 and cannot raise. *)
Equations? modexp_while (result base exponent modulus : Z) : outcome Z
  by wf (Z.to_nat exponent) lt :=
modexp_while result base exponent modulus with Z_gt_dec exponent 0 := {
  | left _ =>
      result' <- (if exponent mod 2 =? 1
                  then py_mod (result * base) modulus
                  else ret result) ;;
      base' <- py_mod (base * base) modulus ;;
      modexp_while result' base' (exponent / 2) modulus
  | right _ => ret result }.
Proof.
  apply Z2Nat.inj_lt; try lia.
  - apply Z.div_pos; lia.
  - apply Z.div_lt; lia.
Qed.

Definition modular_exponentiation (base exponent modulus : Z) : outcome Z :=
  base <- py_mod base modulus ;;
  modexp_while 1 base exponent modulus.

(** ** The random source and the console *)

(** [entropy] is the stream the random module will hand out, one raw
    integer per call; [stdout] the lines printed so far. *)
Record world : Type := World {
  entropy : nat -> Z;
  stdout : list string
}.

Definition M (A : Type) : Type := world -> outcome (A * world).

#[export] Instance Monad_M : Monad M :=
  {| ret := fun _ a w => Ret (a, w);
     bind := fun _ _ c k w =>
       match c w with
       | Ret (a, w') => k a w'
       | Raise e => Raise e
       | Spin => Spin
       end |}.

(** A call that touches neither the random source nor the console. *)
Definition lift {A : Type} (c : outcome A) : M A :=
  fun w =>
    match c with
    | Ret a => Ret (a, w)
    | Raise e => Raise e
    | Spin => Spin
    end.

(** What a run gives back, the final world dropped. *)
Definition run {A : Type} (c : M A) (w : world) : outcome A :=
  match c w with
  | Ret (a, _) => Ret a
  | Raise e => Raise e
  | Spin => Spin
  end.

Definition draw : M Z :=
  fun w => Ret (entropy w 0%nat,
                {| entropy := fun i => entropy w (S i); stdout := stdout w |}).

(** [random.randint(a, b)]: any integer of [a, b]; an empty range is a
    [ValueError]. *)
Definition randint (a b : Z) : M Z :=
  if b <? a then lift (Raise ValueError)
  else r <- draw ;; ret (a + r mod (b - a + 1)).

(** [random.getrandbits(k)]: any integer of [0, 2**k).  The argument is
    first converted to a C [int], an [OverflowError] outside
    [-2**31, 2**31); a negative [k] is then a [ValueError]. *)
Definition getrandbits (k : Z) : M Z :=
  if (k <? - 2147483648) || (2147483647 <? k) then lift (Raise OverflowError)
  else if k <? 0 then lift (Raise ValueError)
  else r <- draw ;; ret (r mod 2 ^ k).

Definition print (line : string) : M unit :=
  fun w => Ret (tt, {| entropy := entropy w; stdout := stdout w ++ [line] |}).

Fixpoint print_all (lines : list string) : M unit :=
  match lines with
  | [] => ret tt
  | line :: rest => print line ;; print_all rest
  end.

(** ** is_prime *)

(** [while d % 2 == 0: r += 1; d //= 2].  From [d = 0] the loop would
    never leave; [is_prime] enters it with [d = n - 1 >= 4]. *)
Equations? split_twos (r d : Z) : outcome (Z * Z) by wf (Z.abs_nat d) lt :=
split_twos r d with Z.eq_dec d 0 := {
  | left _ => Spin
  | right _ with Z.eq_dec (d mod 2) 0 := {
    | left _ => split_twos (r + 1) (d / 2)
    | right _ => ret (r, d) } }.
Proof.
  pose proof (Z.div_mod d 2). lia.
Qed.

(** The inner [for _ in range(r - 1)] with its [else]: [true] when the
    loop was left through [break], [false] when it ran to the end. *)
Fixpoint squarings (j : nat) (x n : Z) : outcome bool :=
  match j with
  | O => ret false
  | S j' =>
      x' <- modular_exponentiation x 2 n ;;
      if x' =? n - 1 then ret true else squarings j' x' n
  end.

(** The outer [for _ in range(k)]. *)
Fixpoint witness_rounds (i : nat) (n r d : Z) : M bool :=
  match i with
  | O => ret true
  | S i' =>
      a <- randint 2 (n - 2) ;;
      x <- lift (modular_exponentiation a d n) ;;
      if (x =? 1) || (x =? n - 1) then witness_rounds i' n r d
      else
        broke <- lift (squarings (Z.to_nat (r - 1)) x n) ;;
        if broke then witness_rounds i' n r d else ret false
  end.

Definition is_prime (n k : Z) : M bool :=
  if n <=? 1 then ret false
  else if n <=? 3 then ret true
  else if n mod 2 =? 0 then ret false
  else
    rd <- lift (split_twos 0 (n - 1)) ;;
    let '(r, d) := rd in
    witness_rounds (Z.to_nat k) n r d.

(** ** generate_prime *)

(** [while True] with a budget of [fuel] candidates. *)
Fixpoint generate_prime (fuel : nat) (bits : Z) : M Z :=
  match fuel with
  | O => lift Spin
  | S fuel' =>
      candidate <- getrandbits bits ;;
      accepted <- is_prime candidate 5 ;;
      if accepted then ret candidate else generate_prime fuel' bits
  end.

(** ** extended_gcd and explain_extended_gcd *)

(** Each activation of a recursive function takes a frame, and the
    interpreter raises [RecursionError] when none is left.  [frames] is
    the number of nested activations still allowed when the call is
    made; it depends on the recursion limit and on the stack at that
    point. *)

(** The recursive call is on [(b, a % b)] behind the test [b == 0], so
    neither [%] nor [//] can raise. *)
Fixpoint extended_gcd (frames : nat) (a b : Z) : outcome (Z * Z * Z) :=
  match frames with
  | O => Raise RecursionError
  | S frames' =>
      if b =? 0 then ret (a, 1, 0)
      else
        r <- extended_gcd frames' b (a mod b) ;;
        let '(gcd_, x1, y1) := r in
        let x := y1 in
        let y := x1 - (a / b) * y1 in
        ret (gcd_, x, y)
  end.

(** The decimal digits of an integer, with [-] for a negative one. *)
Definition decimal (z : Z) : string :=
  DecimalString.NilZero.string_of_int (Z.to_int z).

(** [sys.int_info.default_max_str_digits] *)
Definition max_str_digits : Z := 4300.

(** [f"{z}"] for an integer: its decimal digits, and a [ValueError] when
    there are more than [max_str_digits] of them, that is when
    [abs(z) >= 10 ** max_str_digits].  An integer of fewer than 14285
    bits is below that bound, which spares the comparison. *)
Definition fmt (z : Z) : outcome string :=
  if Z.log2 (Z.abs z) <? 14284 then Ret (decimal z)
  else if Z.abs z <? 10 ^ max_str_digits then Ret (decimal z)
  else Raise ValueError.

Fixpoint explain_extended_gcd (frames : nat) (a b : Z)
  : outcome (Z * Z * Z * list string) :=
  match frames with
  | O => Raise RecursionError
  | S frames' =>
      if b =? 0 then
        a1 <- fmt a ;; b1 <- fmt b ;; a2 <- fmt a ;;
        let steps :=
          ["Base case: gcd(" ++ a1 ++ ", " ++ b1 ++ ") = " ++ a2]%string in
        ret (a, 1, 0, steps)
      else
        r <- explain_extended_gcd frames' b (a mod b) ;;
        let '(gcd_, x1, y1, sub_steps) := r in
        let x := y1 in
        let y := x1 - (a / b) * y1 in
        a1 <- fmt a ;; b1 <- fmt b ;; x2 <- fmt x ;; y2 <- fmt y ;;
        let steps :=
          (sub_steps ++
           ["gcd(" ++ a1 ++ ", " ++ b1 ++ "): x = " ++ x2
            ++ ", y = " ++ y2]%string)%list in
        ret (gcd_, x, y, steps)
  end.

(** ** generate_rsa_keys *)

(** The search for [e], with a budget of [fuel] draws; [math.gcd] is
    [Z.gcd]. *)
Fixpoint choose_e (fuel : nat) (phi : Z) : M Z :=
  match fuel with
  | O => lift Spin
  | S fuel' =>
      e <- randint 2 (phi - 1) ;;
      if Z.gcd e phi =? 1 then ret e else choose_e fuel' phi
  end.

(** [sys.getrecursionlimit()] as the interpreter starts.  The frames
    already on the stack when a call is made can only lower what is
    left of it. *)
Definition recursion_limit : nat := 1000.

Definition generate_rsa_keys (fuel : nat) (bits : Z) : M ((Z * Z) * (Z * Z)) :=
  print "Generating primes..." ;;
  p <- generate_prime fuel (bits / 2) ;;
  q <- generate_prime fuel (bits / 2) ;;
  let n := p * q in
  let phi := (p - 1) * (q - 1) in
  print "Calculating public and private keys..." ;;
  e <- choose_e fuel phi ;;
  r <- lift (explain_extended_gcd recursion_limit e phi) ;;
  let '(_, d, _, steps) := r in
  d <- lift (py_mod d phi) ;;
  let d := if d <? 0 then d + phi else d in
  print "Steps for calculating private key:" ;;
  print_all steps ;;
  ret ((e, n), (d, n)).

(** The two primes a run of [generate_rsa_keys] draws: the results of its
    two calls of [generate_prime]. *)
Definition generated_factors (fuel : nat) (bits : Z) (w : world) (p q : Z) : Prop :=
  exists w0 w1 w2,
    print "Generating primes..." w = Ret (tt, w0) /\
    generate_prime fuel (bits / 2) w0 = Ret (p, w1) /\
    generate_prime fuel (bits / 2) w1 = Ret (q, w2).

(** ** encrypt_rsa and decrypt_rsa *)

(** A comprehension or [for] loop over a list whose body may raise. *)
Fixpoint for_each {A B : Type} (f : A -> outcome B) (l : list A) : outcome (list B) :=
  match l with
  | [] => ret []
  | a :: rest => b <- f a ;; bs <- for_each f rest ;; ret (b :: bs)
  end.

Definition encrypt_rsa (message : list Z) (public_key : Z * Z) : outcome (list Z) :=
  let '(e, n) := public_key in
  for_each (fun char => modular_exponentiation (ord char) e n) message.

(** ["?"] *)
Definition placeholder : list Z := [63].

Definition decrypt_rsa (ciphertext : list Z) (private_key : Z * Z) : outcome (list Z) :=
  let '(d, n) := private_key in
  decrypted_chars <-
    for_each (fun char =>
                decrypted_value <- modular_exponentiation char d n ;;
                if (0 <=? decrypted_value) && (decrypted_value <=? 1114111)
                then chr decrypted_value
                else ret placeholder) ciphertext ;;
  ret (List.concat decrypted_chars).

(** ** explain_modular_exponentiation *)

(** The loop of [modular_exponentiation] again, appending one record
    after each multiplication and one after each squaring. *)
Equations? explain_modexp_while
  (result base exponent modulus : Z) (steps : list string)
  : outcome (list string) by wf (Z.to_nat exponent) lt :=
explain_modexp_while result base exponent modulus steps
  with Z_gt_dec exponent 0 := {
  | left _ =>
      rs <- (if exponent mod 2 =? 1
             then result' <- py_mod (result * base) modulus ;;
                  shown <- fmt result' ;;
                  ret (result',
                       (steps ++
                        ["result = (result * base) % modulus = "
                         ++ shown]%string)%list)
             else ret (result, steps)) ;;
      let exponent' := exponent / 2 in
      base' <- py_mod (base * base) modulus ;;
      shown_base <- fmt base' ;;
      shown_exponent <- fmt exponent' ;;
      explain_modexp_while (fst rs) base' exponent' modulus
        (snd rs ++
         ["base = (base * base) % modulus = " ++ shown_base
          ++ ", exponent = " ++ shown_exponent]%string)%list
  | right _ => ret steps }.
Proof.
  apply Z2Nat.inj_lt; try lia.
  - apply Z.div_pos; lia.
  - apply Z.div_lt; lia.
Qed.

(** Only the records are returned, not the result. *)
Definition explain_modular_exponentiation (base exponent modulus : Z)
  : outcome (list string) :=
  base <- py_mod base modulus ;;
  explain_modexp_while 1 base exponent modulus [].

(** ** Vocabulary of the statements *)

(** What one ciphertext element decrypts to, given the value [v] of its
    modular power. *)
Definition decoded (v : Z) : Z :=
  if (0 <=? v) && (v <=? 1114111) then v else 63.

(** Primality by trial division, to establish [Z.prime] of a numeral. *)
Definition trial_division (p : Z) : bool :=
  (1 <? p) &&
  forallb (fun d => negb (p mod d =? 0))
          (map Z.of_nat (seq 2 (Z.to_nat (p - 2)))).

(** The world after [j] draws from the random source, the console as it
    was. *)
Definition advance (j : nat) (w : world) : world :=
  {| entropy := fun i => entropy w (j + i)%nat; stdout := stdout w |}.

(** ** Concrete worlds *)

(** The world whose random source hands out [draws], then zeros, and
    whose console is still empty. *)
Definition tape (draws : list Z) : world :=
  {| entropy := fun i => nth i draws 0; stdout := [] |}.

(** * Properties *)

(** ** modular_exponentiation *)

Lemma py_mod_ok a m : m <> 0 -> py_mod a m = Ret (a mod m).
Proof.
  intros H. unfold py_mod. destruct (Z.eqb_spec m 0); [lia | reflexivity].
Qed.

(** Reducing the base first does not change a power modulo [m], whatever
    the sign of [m]. *)
Lemma pow_mod_base x k m :
  m <> 0 -> 0 <= k -> ((x mod m) ^ k) mod m = (x ^ k) mod m.
Proof.
  intros Hm Hk. pattern k. apply natlike_ind; [reflexivity | | exact Hk].
  intros j Hj IH. rewrite !Z.pow_succ_r by exact Hj.
  rewrite Z.mul_mod, IH, Z.mod_mod, <- Z.mul_mod by exact Hm. reflexivity.
Qed.

Lemma halve_pow b e : 0 <= e -> b ^ e = b ^ (e mod 2) * (b * b) ^ (e / 2).
Proof.
  intros He.
  assert (H2 : 0 <= e / 2) by (apply Z.div_pos; lia).
  assert (Hr : 0 <= e mod 2) by (apply Z.mod_pos_bound; lia).
  rewrite (Z.div_mod e 2) at 1 by lia.
  rewrite Z.pow_add_r, Z.pow_mul_r, Z.pow_2_r by lia.
  ring.
Qed.

(** Loop invariant of square-and-multiply: what is still to be multiplied
    into [result] is [base ^ exponent]. *)
Lemma modexp_while_spec modulus result base exponent :
  modulus <> 0 ->
  modexp_while result base exponent modulus =
  Ret (if exponent >? 0 then (result * base ^ exponent) mod modulus else result).
Proof.
  intros Hm. funelim (modexp_while result base exponent modulus).
  - clear Heqcall Heq.
    assert (Hpos : (exponent >? 0) = true) by (apply Z.gtb_lt; lia).
    rewrite Hpos, (halve_pow base exponent) by lia.
    assert (Hbit : exponent mod 2 = 0 \/ exponent mod 2 = 1)
      by (pose proof (Z.mod_pos_bound exponent 2); lia).
    assert (Hsq : forall r,
               (r * ((base * base) mod modulus) ^ (exponent / 2)) mod modulus
               = (r * (base * base) ^ (exponent / 2)) mod modulus).
    { intros r. rewrite Z.mul_mod, pow_mod_base, <- Z.mul_mod; auto.
      apply Z.div_pos; lia. }
    destruct Hbit as [Hb | Hb]; rewrite Hb; simpl (_ =? 1); cbv iota;
      rewrite !py_mod_ok by exact Hm; cbn [bind ret Monad_outcome].
    + rewrite H by exact Hm.
      assert (Hh : (exponent / 2 >? 0) = true).
      { apply Z.gtb_lt. pose proof (Z.div_mod exponent 2). lia. }
      rewrite Hh, Hsq. do 2 f_equal. ring.
    + rewrite H by exact Hm. f_equal.
      destruct (Z.gtb_spec (exponent / 2) 0) as [Hh | Hh].
      * rewrite Hsq, Z.mul_mod_idemp_l by exact Hm. f_equal. ring.
      * assert (exponent / 2 = 0) by (pose proof (Z.div_pos exponent 2); lia).
        replace (exponent / 2) with 0. f_equal. ring.
  - destruct (Z.gtb_spec exponent 0); [lia | reflexivity].
Qed.

(** The whole behaviour of the function, by cases on its arguments. *)
Lemma modexp_cases base exponent modulus :
  modular_exponentiation base exponent modulus =
  if modulus =? 0 then Raise ZeroDivisionError
  else if exponent >? 0 then Ret ((base ^ exponent) mod modulus)
  else Ret 1.
Proof.
  unfold modular_exponentiation, py_mod.
  destruct (Z.eqb_spec modulus 0) as [Hm | Hm]; [reflexivity |].
  cbn [bind ret Monad_outcome]. rewrite modexp_while_spec by exact Hm.
  destruct (Z.gtb_spec exponent 0) as [He | He]; [| reflexivity].
  rewrite Z.mul_1_l, pow_mod_base by lia. reflexivity.
Qed.

Lemma modexp_value base exponent modulus :
  modulus <> 0 -> 0 < exponent ->
  modular_exponentiation base exponent modulus = Ret ((base ^ exponent) mod modulus).
Proof.
  intros Hm He. rewrite modexp_cases.
  destruct (Z.eqb_spec modulus 0); [lia |].
  destruct (Z.gtb_spec exponent 0); [reflexivity | lia].
Qed.

(** C2: for [exponent >= 0] and [modulus > 1] the call returns
    [(base ** exponent) mod modulus], a value of [[0, modulus)]. *)
Theorem modular_exponentiation_correct base exponent modulus :
  0 <= exponent -> 1 < modulus ->
  modular_exponentiation base exponent modulus = Ret ((base ^ exponent) mod modulus)
  /\ 0 <= (base ^ exponent) mod modulus < modulus.
Proof.
  intros He Hm. split; [| apply Z.mod_pos_bound; lia].
  rewrite modexp_cases.
  destruct (Z.eqb_spec modulus 0); [lia |].
  destruct (Z.gtb_spec exponent 0); [reflexivity |].
  replace exponent with 0 by lia. rewrite Z.pow_0_r, Z.mod_1_l by lia. reflexivity.
Qed.

Lemma modular_exponentiation_correct_witness :
  modular_exponentiation 65 17 3233 = Ret ((65 ^ 17) mod 3233)
  /\ 0 <= (65 ^ 17) mod 3233 < 3233.
Proof. apply (modular_exponentiation_correct 65 17 3233); lia. Defined.

(** C6 (as amended): [modular_exponentiation] checks neither argument.  A
    zero modulus raises [ZeroDivisionError] at the first reduction; every
    other call returns normally: [1] when the exponent is not positive,
    and the floor residue of [base ** exponent] otherwise, for a modulus of
    either sign (so [0] when the modulus is [1]). *)
Theorem modular_exponentiation_unchecked base exponent modulus :
  modular_exponentiation base exponent modulus =
  if modulus =? 0 then Raise ZeroDivisionError
  else if exponent >? 0 then Ret ((base ^ exponent) mod modulus)
  else Ret 1.
Proof. apply modexp_cases. Qed.

(** C6, as stated, fails: a call with modulus [1], and a call with a
    negative exponent, both return normally. *)
Lemma modular_exponentiation_no_validation :
  modular_exponentiation 2 3 1 = Ret 0 /\
  modular_exponentiation 2 (-3) 7 = Ret 1.
Proof. split; vm_compute; reflexivity. Qed.

(** The textbook example of the specification. *)
Example modexp_textbook :
  modular_exponentiation 65 17 3233 = Ret 2790.
Proof. vm_compute. reflexivity. Qed.

(** ** extended_gcd *)

(** Whatever is returned satisfies the Bezout identity, for integers of
    any sign. *)
Lemma extended_gcd_bezout frames :
  forall a b g x y, extended_gcd frames a b = Ret (g, x, y) -> a * x + b * y = g.
Proof.
  induction frames as [| frames IH]; intros a b g x y E; [discriminate |].
  cbn [extended_gcd bind ret Monad_outcome] in E.
  destruct (Z.eqb_spec b 0) as [Hb | Hb].
  - inversion E; subst. ring.
  - destruct (extended_gcd frames b (a mod b)) as [[[g1 x1] y1] | |] eqn:E1;
      try discriminate.
    inversion E; subst; clear E.
    rewrite <- (IH _ _ _ _ _ E1).
    rewrite (Z.div_mod a b) at 1 by assumption. ring.
Qed.

(** The first component is the gcd up to sign. *)
Lemma extended_gcd_abs frames :
  forall a b g x y, extended_gcd frames a b = Ret (g, x, y) -> Z.abs g = Z.gcd a b.
Proof.
  induction frames as [| frames IH]; intros a b g x y E; [discriminate |].
  cbn [extended_gcd bind ret Monad_outcome] in E.
  destruct (Z.eqb_spec b 0) as [Hb | Hb].
  - inversion E; subst. rewrite Z.gcd_0_r. reflexivity.
  - destruct (extended_gcd frames b (a mod b)) as [[[g1 x1] y1] | |] eqn:E1;
      try discriminate.
    inversion E; subst; clear E.
    rewrite (IH _ _ _ _ _ E1), (Z.gcd_comm b), Z.gcd_mod by assumption.
    apply Z.gcd_comm.
Qed.

(** It is the non-negative gcd as soon as the recursion does not bottom
    out on a negative [a]. *)
Lemma extended_gcd_gcd frames :
  forall a b g x y,
    0 <= b -> 0 <= a \/ 0 < b ->
    extended_gcd frames a b = Ret (g, x, y) -> g = Z.gcd a b.
Proof.
  induction frames as [| frames IH]; intros a b g x y Hb Hab E; [discriminate |].
  cbn [extended_gcd bind ret Monad_outcome] in E.
  destruct (Z.eqb_spec b 0) as [Hz | Hz].
  - inversion E; subst. rewrite Z.gcd_0_r. lia.
  - destruct (extended_gcd frames b (a mod b)) as [[[g1 x1] y1] | |] eqn:E1;
      try discriminate.
    inversion E; subst; clear E.
    assert (Hr : 0 <= a mod b < b) by (apply Z.mod_pos_bound; lia).
    assert (Hb' : 0 <= a mod b) by lia.
    assert (Hor : 0 <= b \/ 0 < a mod b) by lia.
    rewrite (IH _ _ _ _ _ Hb' Hor E1).
    rewrite (Z.gcd_comm b), Z.gcd_mod by assumption. apply Z.gcd_comm.
Qed.

(** The only exception is [RecursionError]. *)
Lemma extended_gcd_raises frames :
  forall a b err, extended_gcd frames a b = Raise err -> err = RecursionError.
Proof.
  induction frames as [| frames IH]; intros a b err E.
  - inversion E. reflexivity.
  - cbn [extended_gcd bind ret Monad_outcome] in E.
    destruct (b =? 0); [discriminate |].
    destruct (extended_gcd frames b (a mod b)) as [[[g1 x1] y1] | err1 |] eqn:E1;
      try discriminate.
    inversion E; subst. eapply IH. exact E1.
Qed.

Lemma extended_gcd_no_spin frames :
  forall a b, extended_gcd frames a b <> Spin.
Proof.
  induction frames as [| frames IH]; intros a b E; [discriminate |].
  cbn [extended_gcd bind ret Monad_outcome] in E.
  destruct (b =? 0); [discriminate |].
  destruct (extended_gcd frames b (a mod b)) as [[[g1 x1] y1] | err1 |] eqn:E1;
    try discriminate.
  exact (IH _ _ E1).
Qed.

(** Two steps of Euclid's algorithm at least halve the second argument. *)
Lemma two_steps_halve a b :
  b <> 0 -> a mod b <> 0 -> 2 * Z.abs (b mod (a mod b)) < Z.abs b.
Proof.
  intros Hb Hr. set (r := a mod b) in *.
  pose proof (Z.div_mod b r Hr) as Hdm.
  destruct (Z.lt_trichotomy b 0) as [Hneg | [Hz | Hpos]]; [| lia |].
  - assert (H1 : b < r <= 0) by (apply Z.mod_neg_bound; lia).
    assert (H2 : r < b mod r <= 0) by (apply Z.mod_neg_bound; lia).
    assert (Hq : 1 <= b / r).
    { rewrite <- Z.div_opp_opp by exact Hr.
      apply Z.div_le_lower_bound; lia. }
    nia.
  - assert (H1 : 0 <= r < b) by (apply Z.mod_pos_bound; lia).
    assert (H2 : 0 <= b mod r < r) by (apply Z.mod_pos_bound; lia).
    assert (Hq : 1 <= b / r) by (apply Z.div_le_lower_bound; lia).
    nia.
Qed.

(** With [2 n + 1] frames the call returns on every [b] below [2 ** n]. *)
Lemma extended_gcd_returns_pow n :
  forall frames a b,
    Z.abs b < 2 ^ Z.of_nat n -> (2 * n + 1 <= frames)%nat ->
    exists r, extended_gcd frames a b = Ret r.
Proof.
  induction n as [| n IH]; intros frames a b Hb Hf.
  - destruct frames as [| frames]; [lia |].
    cbn [extended_gcd]. change (2 ^ Z.of_nat 0) with 1 in Hb.
    destruct (Z.eqb_spec b 0); [eexists; reflexivity | lia].
  - destruct frames as [| [| frames]]; try lia.
    cbn [extended_gcd bind ret Monad_outcome].
    destruct (Z.eqb_spec b 0) as [Hz | Hz]; [eexists; reflexivity |].
    destruct (Z.eqb_spec (a mod b) 0) as [Hr | Hr]; [eexists; reflexivity |].
    destruct (IH frames (a mod b) (b mod (a mod b))) as [[[g x] y] ->].
    + pose proof (two_steps_halve a b Hz Hr).
      rewrite Nat2Z.inj_succ, Z.pow_succ_r in Hb by lia. lia.
    + lia.
    + eexists. reflexivity.
Qed.

(** Frames enough for a call: two per bit of [b], and three. *)
Lemma extended_gcd_returns frames a b :
  (2 * Z.to_nat (Z.log2 (Z.abs b)) + 3 <= frames)%nat ->
  exists r, extended_gcd frames a b = Ret r.
Proof.
  intros Hf.
  apply (extended_gcd_returns_pow (S (Z.to_nat (Z.log2 (Z.abs b))))); [| lia].
  rewrite Nat2Z.inj_succ, Z2Nat.id by apply Z.log2_nonneg.
  destruct (Z.eq_dec b 0) as [-> | Hb]; [reflexivity |].
  apply Z.log2_spec. lia.
Qed.

(** C3 (as amended): a call either returns or raises [RecursionError],
    and it returns when [2 * log2(abs b) + 3] frames are left.  The triple
    [(g, x, y)] returned has [a*x + b*y = g], for integers of any sign;
    for [b >= 0], and [a >= 0] when [b = 0], [g = gcd(a, b)], so that for
    coprime arguments [g = 1] and [a*x + b*y = 1]. *)
Theorem extended_gcd_correct frames a b :
  match extended_gcd frames a b with
  | Ret (g, x, y) =>
      a * x + b * y = g /\
      (0 <= b -> 0 <= a \/ 0 < b ->
       g = Z.gcd a b /\ (Z.gcd a b = 1 -> g = 1 /\ a * x + b * y = 1))
  | Raise err =>
      err = RecursionError /\
      (frames < 2 * Z.to_nat (Z.log2 (Z.abs b)) + 3)%nat
  | Spin => False
  end.
Proof.
  destruct (extended_gcd frames a b) as [[[g x] y] | err |] eqn:E.
  - pose proof (extended_gcd_bezout frames a b g x y E) as Hz.
    split; [exact Hz |]. intros Hb Hab.
    pose proof (extended_gcd_gcd frames a b g x y Hb Hab E) as Hg.
    split; [exact Hg |]. intros H1. split; lia.
  - split; [exact (extended_gcd_raises frames a b err E) |].
    destruct (Nat.lt_ge_cases frames (2 * Z.to_nat (Z.log2 (Z.abs b)) + 3))
      as [Hlt | Hge]; [exact Hlt |].
    destruct (extended_gcd_returns frames a b Hge) as [r Hr].
    rewrite Hr in E. discriminate.
  - exact (extended_gcd_no_spin frames a b E).
Qed.

Lemma extended_gcd_correct_witness :
  17 * (-367) + 3120 * 2 = 1 /\
  (0 <= 3120 -> 0 <= 17 \/ 0 < 3120 ->
   1 = Z.gcd 17 3120 /\
   (Z.gcd 17 3120 = 1 -> 1 = 1 /\ 17 * (-367) + 3120 * 2 = 1)).
Proof. exact (extended_gcd_correct 1000 17 3120). Defined.

(** C3, as stated, fails at [a = -4], [b = 0]: the base case hands back
    [a] itself, which is not the (non-negative) gcd. *)
Lemma extended_gcd_negative_base :
  extended_gcd 1000 (-4) 0 = Ret (-4, 1, 0) /\ Z.gcd (-4) 0 = 4.
Proof. split; reflexivity. Qed.

(** The private exponent of the textbook key comes out of this triple. *)
Example extended_gcd_textbook : extended_gcd 1000 17 3120 = Ret (1, -367, 2).
Proof. reflexivity. Qed.

(** Consecutive Fibonacci numbers take one frame each: three frames are
    not enough for [(8, 5)], six are. *)
Example extended_gcd_recursion_limit :
  extended_gcd 3 8 5 = Raise RecursionError /\
  extended_gcd 6 8 5 = Ret (1, 2, -3).
Proof. split; reflexivity. Qed.

(** ** explain_extended_gcd *)

Lemma fmt_ret z shown : fmt z = Ret shown -> shown = decimal z.
Proof.
  unfold fmt. intros H.
  destruct (Z.log2 (Z.abs z) <? 14284); [inversion H; reflexivity |].
  destruct (Z.abs z <? 10 ^ max_str_digits); [inversion H; reflexivity |].
  discriminate.
Qed.

Lemma fmt_outcome z : fmt z = Ret (decimal z) \/ fmt z = Raise ValueError.
Proof.
  unfold fmt. destruct (Z.log2 (Z.abs z) <? 14284); [left; reflexivity |].
  destruct (Z.abs z <? 10 ^ max_str_digits); [left | right]; reflexivity.
Qed.

(** An integer of fewer than 14285 bits has at most 4300 digits. *)
Lemma short_in_bits_short_in_digits : 2 ^ 14284 <= 10 ^ max_str_digits.
Proof. vm_compute. discriminate. Qed.

(** The conversion fails exactly from [10 ** max_str_digits] on. *)
Lemma fmt_cases z :
  fmt z = if Z.abs z <? 10 ^ max_str_digits then Ret (decimal z)
          else Raise ValueError.
Proof.
  unfold fmt. pose proof short_in_bits_short_in_digits as Hpow.
  remember (10 ^ max_str_digits) as L eqn:HL.
  remember (2 ^ 14284) as P eqn:HP.
  destruct (Z.ltb_spec (Z.log2 (Z.abs z)) 14284) as [Hl | Hl];
    [| reflexivity].
  destruct (Z.ltb_spec (Z.abs z) L) as [Hs | Hs];
    [reflexivity | exfalso].
  assert (HP0 : 0 < P) by (subst P; apply Z.pow_pos_nonneg; lia).
  assert (Hz : 0 < Z.abs z) by (clear HL HP; lia).
  pose proof (Z.log2_spec (Z.abs z) Hz) as [_ Hup].
  assert (Hle : 2 ^ Z.succ (Z.log2 (Z.abs z)) <= P).
  { subst P. apply Z.pow_le_mono_r; [lia |].
    apply Z.le_succ_l. exact Hl. }
  clear HL HP. lia.
Qed.

(** Case analysis on every conversion in sight. *)
Ltac split_fmt :=
  repeat match goal with
         | |- context [fmt ?z] =>
             destruct (fmt_outcome z) as [-> | ->]; cbn [bind ret Monad_outcome]
         end.

(** The two recursions, side by side: the diagnostic one returns what
    the plain one returns, if it returns. *)
Lemma explain_extended_gcd_relates frames :
  forall a b,
  match explain_extended_gcd frames a b with
  | Ret (g, x, y, _) => extended_gcd frames a b = Ret (g, x, y)
  | Raise err =>
      err = RecursionError /\ extended_gcd frames a b = Raise RecursionError \/
      err = ValueError /\ exists t, extended_gcd frames a b = Ret t
  | Spin => False
  end.
Proof.
  induction frames as [| frames IH]; intros a b.
  - left. split; reflexivity.
  - cbn [explain_extended_gcd extended_gcd bind ret Monad_outcome].
    destruct (b =? 0).
    + split_fmt; try reflexivity;
        right; (split; [reflexivity | eexists; reflexivity]).
    + specialize (IH b (a mod b)).
      destruct (explain_extended_gcd frames b (a mod b))
        as [[[[g1 x1] y1] st] | err |].
      * rewrite IH. cbn [bind ret Monad_outcome].
        split_fmt; try reflexivity;
          right; (split; [reflexivity | eexists; reflexivity]).
      * destruct IH as [[-> ->] | [-> [[[g1 x1] y1] ->]]];
          cbn [bind ret Monad_outcome].
        -- left. split; reflexivity.
        -- right. split; [reflexivity | eexists; reflexivity].
      * contradiction.
Qed.

Lemma explain_extended_gcd_fst frames a b g x y steps :
  explain_extended_gcd frames a b = Ret (g, x, y, steps) ->
  extended_gcd frames a b = Ret (g, x, y).
Proof.
  intros E. pose proof (explain_extended_gcd_relates frames a b) as H.
  rewrite E in H. exact H.
Qed.



(** One record per stack frame, innermost first. *)
Example explain_extended_gcd_textbook :
  explain_extended_gcd 1000 17 9 =
  Ret (1, -1, 2,
       ["Base case: gcd(1, 0) = 1"; "gcd(8, 1): x = 0, y = 1";
        "gcd(9, 8): x = 1, y = -1"; "gcd(17, 9): x = -1, y = 2"]%string).
Proof. vm_compute. reflexivity. Qed.

(** ** is_prime: the cases settled before any draw *)

Lemma is_prime_rejects_le_1 n k w : n <= 1 -> is_prime n k w = Ret (false, w).
Proof.
  intros H. unfold is_prime. destruct (Z.leb_spec n 1); [reflexivity | lia].
Qed.

(** C8: [n <= 1] is rejected, [2] and [3] are accepted and every even
    [n > 3] is rejected, for every round count and with the random source
    left untouched. *)
Theorem is_prime_small_cases n k w :
  (n <= 1 -> is_prime n k w = Ret (false, w)) /\
  (n = 2 \/ n = 3 -> is_prime n k w = Ret (true, w)) /\
  (3 < n -> n mod 2 = 0 -> is_prime n k w = Ret (false, w)).
Proof.
  unfold is_prime. repeat split; intros;
    destruct (Z.leb_spec n 1), (Z.leb_spec n 3), (Z.eqb_spec (n mod 2) 0);
    try lia; reflexivity.
Qed.

Lemma is_prime_small_cases_witness :
  is_prime 0 5 (tape [7]) = Ret (false, tape [7]) /\
  is_prime 3 5 (tape [7]) = Ret (true, tape [7]) /\
  is_prime 100 5 (tape [7]) = Ret (false, tape [7]).
Proof.
  split; [| split].
  - apply (proj1 (is_prime_small_cases 0 5 (tape [7]))). lia.
  - apply (proj1 (proj2 (is_prime_small_cases 3 5 (tape [7])))). lia.
  - apply (proj2 (proj2 (is_prime_small_cases 100 5 (tape [7])))).
    + lia.
    + reflexivity.
Defined.

(** The known values of the specification, under one choice of draws. *)
Example is_prime_known_values :
  map (fun n => run (is_prime n 5) (tape [0; 1; 2; 3; 4]))
      [2; 3; 5; 7; 97; 7919; 4; 9; 100; 561]
  = map Ret [true; true; true; true; true; true; false; false; false; false].
Proof. vm_compute. reflexivity. Qed.

(** ** decrypt_rsa *)

Lemma for_each_ok {A B : Type} (f : A -> outcome B) (g : A -> B) l :
  Forall (fun a => f a = Ret (g a)) l -> for_each f l = Ret (map g l).
Proof.
  induction 1 as [| a l Ha _ IH]; [reflexivity |].
  cbn [for_each map bind ret Monad_outcome]. rewrite Ha, IH. reflexivity.
Qed.

Lemma concat_singletons {A B : Type} (g : A -> B) l :
  List.concat (map (fun a => [g a]) l) = map g l.
Proof.
  induction l as [| a l IH]; [reflexivity |]. cbn. rewrite IH. reflexivity.
Qed.

Lemma decoded_is_char v : 0 <= decoded v <= 1114111.
Proof.
  unfold decoded.
  destruct (Z.leb_spec 0 v), (Z.leb_spec v 1114111); cbn; lia.
Qed.

Lemma decrypt_rsa_map d n ciphertext :
  n <> 0 ->
  decrypt_rsa ciphertext (d, n) =
  Ret (map (fun c => decoded (if d >? 0 then (c ^ d) mod n else 1)) ciphertext).
Proof.
  intros Hn. unfold decrypt_rsa.
  rewrite (for_each_ok _
             (fun c => [decoded (if d >? 0 then (c ^ d) mod n else 1)])).
  - cbn [bind ret Monad_outcome]. rewrite concat_singletons. reflexivity.
  - apply Forall_forall. intros c _. rewrite modexp_cases.
    destruct (Z.eqb_spec n 0); [lia |].
    unfold decoded, chr, placeholder.
    destruct (d >? 0); cbn [bind ret Monad_outcome];
      match goal with
      | |- context [(0 <=? ?v) && (?v <=? 1114111)] =>
          destruct ((0 <=? v) && (v <=? 1114111)); reflexivity
      end.
Qed.

(** C7: with [n > 1] decryption of any list of integers returns a string,
    one character per element: the character of code point
    [v = modular_exponentiation(c, d, n)] when [v] is in [[0, 0x10FFFF]],
    and ["?"] (code point 63) otherwise. *)
Theorem decrypt_rsa_total d n ciphertext :
  1 < n ->
  exists s,
    decrypt_rsa ciphertext (d, n) = Ret s /\
    is_str s /\
    Forall2 (fun c ch =>
               exists v, modular_exponentiation c d n = Ret v /\
                         ch = if (0 <=? v) && (v <=? 1114111) then v else 63)
            ciphertext s.
Proof.
  intros Hn. eexists. split; [apply decrypt_rsa_map; lia |]. split.
  - apply Forall_forall. intros ch Hin. apply in_map_iff in Hin.
    destruct Hin as [c [<- _]]. apply decoded_is_char.
  - induction ciphertext as [| c l IH]; cbn [map]; constructor; [| exact IH].
    exists (if d >? 0 then (c ^ d) mod n else 1). split; [| reflexivity].
    rewrite modexp_cases. destruct (Z.eqb_spec n 0); [lia |].
    destruct (d >? 0); reflexivity.
Qed.

Lemma decrypt_rsa_total_witness :
  exists s,
    decrypt_rsa [1114112; 2790] (1, 2000000) = Ret s /\
    is_str s /\
    Forall2 (fun c ch =>
               exists v, modular_exponentiation c 1 2000000 = Ret v /\
                         ch = if (0 <=? v) && (v <=? 1114111) then v else 63)
            [1114112; 2790] s.
Proof. apply (decrypt_rsa_total 1 2000000 [1114112; 2790]). lia. Defined.

(** The corruption scenario of the specification: a value just above the
    code-point range becomes ["?"], and the next element still decrypts. *)
Example decrypt_rsa_placeholder :
  decrypt_rsa [1114112; 66] (1, 2000000) = Ret [63; 66].
Proof. vm_compute. reflexivity. Qed.

Example decrypt_rsa_empty d n : decrypt_rsa [] (d, n) = Ret [].
Proof. reflexivity. Qed.

(** ** generate_prime *)

Lemma getrandbits_value k w :
  0 <= k <= 2147483647 ->
  getrandbits k w =
  Ret (entropy w 0%nat mod 2 ^ k,
       {| entropy := fun i => entropy w (S i); stdout := stdout w |}).
Proof.
  intros Hk. unfold getrandbits.
  destruct (Z.ltb_spec k (- 2147483648)); [lia |].
  destruct (Z.ltb_spec 2147483647 k); [lia |].
  destruct (Z.ltb_spec k 0); [lia | reflexivity].
Qed.

(** The three ways the call can fail or not, by the size of [k]. *)
Lemma getrandbits_cases k w :
  getrandbits k w =
  if (k <? - 2147483648) || (2147483647 <? k) then Raise OverflowError
  else if k <? 0 then Raise ValueError
  else Ret (entropy w 0%nat mod 2 ^ k,
            {| entropy := fun i => entropy w (S i); stdout := stdout w |}).
Proof.
  unfold getrandbits.
  destruct ((k <? - 2147483648) || (2147483647 <? k)); [reflexivity |].
  destruct (k <? 0); reflexivity.
Qed.

(** Whatever [generate_prime] returns is below [2 ** bits] and was accepted
    by a run of [is_prime] with five rounds. *)
Lemma generate_prime_returns fuel bits w p w' :
  generate_prime fuel bits w = Ret (p, w') ->
  0 <= p < 2 ^ bits /\ exists w1, is_prime p 5 w1 = Ret (true, w').
Proof.
  revert w. induction fuel as [| fuel IH]; intros w H; [discriminate |].
  cbn [generate_prime bind ret Monad_M] in H.
  rewrite getrandbits_cases in H.
  destruct ((bits <? - 2147483648) || (2147483647 <? bits)); [discriminate |].
  destruct (Z.ltb_spec bits 0); [discriminate |].
  match type of H with context [is_prime ?c 5 ?w1] =>
    destruct (is_prime c 5 w1) as [[[|] w2] | |] eqn:E; try discriminate
  end.
  - inversion H; subst. split; [| eexists; exact E].
    apply Z.mod_pos_bound. apply Z.pow_pos_nonneg; lia.
  - eapply IH. exact H.
Qed.

(** C4 fails on the code: the draw [5] is a possible result of
    [generate_prime(4)], and its bit 3 is clear (it has three significant
    bits, not four). *)
Theorem generate_prime_top_bit_clear :
  run (generate_prime 1 4) (tape [5; 0; 1; 0; 1; 0]) = Ret 5 /\
  Z.testbit 5 (4 - 1) = false /\
  Z.log2 5 + 1 = 3.
Proof. repeat split; vm_compute; reflexivity. Qed.

(** ** generate_rsa_keys on degenerate widths *)

(** A candidate of zero bits or one bit is 0 or 1, which [is_prime]
    rejects: the loop never leaves. *)
Lemma generate_prime_spins fuel bits w :
  0 <= bits <= 1 -> generate_prime fuel bits w = Spin.
Proof.
  intros Hb. revert w. induction fuel as [| fuel IH]; intros w; [reflexivity |].
  cbn [generate_prime bind ret Monad_M]. rewrite getrandbits_value by lia.
  assert (Hc : entropy w 0%nat mod 2 ^ bits <= 1).
  { assert (Hp : 0 < 2 ^ bits <= 2).
    { assert (bits = 0 \/ bits = 1) as [-> | ->] by lia; cbn; lia. }
    pose proof (Z.mod_pos_bound (entropy w 0%nat) (2 ^ bits)). lia. }
  rewrite (is_prime_rejects_le_1 _ 5 _ Hc). apply IH.
Qed.

(** A negative width is refused by [getrandbits]: with [OverflowError]
    when it does not fit a C [int], with [ValueError] otherwise. *)
Lemma generate_prime_negative_bits fuel bits w :
  bits < 0 ->
  generate_prime (S fuel) bits w =
  Raise (if bits <? - 2147483648 then OverflowError else ValueError).
Proof.
  intros Hb. cbn [generate_prime bind ret Monad_M]. rewrite getrandbits_cases.
  destruct (Z.ltb_spec bits (- 2147483648)); [reflexivity |].
  destruct (Z.ltb_spec 2147483647 bits); [lia |].
  destruct (Z.ltb_spec bits 0); [reflexivity | lia].
Qed.

(** C5 (as amended): no width is refused with [InvalidKeySize].  For
    [0 <= bits < 4] the call neither returns nor raises: the first prime
    search is still running after any number of candidates.  For
    [bits < 0] the first [getrandbits(bits // 2)] raises: [ValueError],
    or [OverflowError] when [bits // 2] is below [-2 ** 31]. *)
Theorem generate_rsa_keys_small_bits fuel bits w :
  (0 <= bits < 4 -> generate_rsa_keys fuel bits w = Spin) /\
  (bits < 0 ->
   generate_rsa_keys (S fuel) bits w =
   Raise (if bits / 2 <? - 2147483648 then OverflowError else ValueError)).
Proof.
  split; intros Hb; unfold generate_rsa_keys;
    cbn [bind ret Monad_M print].
  - rewrite generate_prime_spins; [reflexivity |].
    pose proof (Z.div_mod bits 2 ltac:(lia)).
    pose proof (Z.mod_pos_bound bits 2 ltac:(lia)). lia.
  - rewrite generate_prime_negative_bits; [reflexivity |].
    pose proof (Z.div_mod bits 2 ltac:(lia)).
    pose proof (Z.mod_pos_bound bits 2 ltac:(lia)). lia.
Qed.

Lemma generate_rsa_keys_small_bits_witness :
  generate_rsa_keys 9 3 (tape [1; 0; 1]) = Spin /\
  generate_rsa_keys 9 (-2) (tape [1; 0; 1]) = Raise ValueError /\
  generate_rsa_keys 9 (-4294967298) (tape [1; 0; 1]) = Raise OverflowError.
Proof.
  split; [| split].
  - apply (proj1 (generate_rsa_keys_small_bits 9 3 (tape [1; 0; 1]))). lia.
  - apply (proj2 (generate_rsa_keys_small_bits 8 (-2) (tape [1; 0; 1]))). lia.
  - apply (proj2 (generate_rsa_keys_small_bits 8 (-4294967298) (tape [1; 0; 1]))).
    lia.
Defined.

(** C5, as stated, fails at [bits = 2]: after forty candidates the call
    is still looking for its first prime, and nothing was raised. *)
Lemma generate_rsa_keys_no_size_check :
  run (generate_rsa_keys 40 2) (tape [1; 0; 3; 2; 5]) = Spin.
Proof. vm_compute. reflexivity. Qed.

(** ** Number theory behind Miller-Rabin and RSA *)

Lemma trial_division_prime p : trial_division p = true -> Z.prime p.
Proof.
  unfold trial_division. intros H. apply andb_prop in H as [H1 H2].
  apply Z.ltb_lt in H1. split; [exact H1 |].
  intros n Hn Hdiv. rewrite forallb_forall in H2.
  specialize (H2 n). rewrite negb_true_iff in H2.
  assert (Hin : In n (map Z.of_nat (seq 2 (Z.to_nat (p - 2))))).
  { apply in_map_iff. exists (Z.to_nat n). split; [lia |].
    apply in_seq. lia. }
  apply H2 in Hin. apply Z.eqb_neq in Hin. apply Hin.
  apply Z.mod_divide; [lia | exact Hdiv].
Qed.

Lemma divide_small p y : 0 < p -> (p | y) -> - p < y < p -> y = 0.
Proof.
  intros Hp [k ->] H.
  destruct (Z.lt_trichotomy k 0) as [Hk | [Hk | Hk]]; nia.
Qed.

Section PrimeModulus.

Variable p : Z.
Hypothesis p_prime : Z.prime p.

Let p_ge_2 : 2 <= p := Z.prime_ge_2 p p_prime.

(** Modulo a prime the only square roots of 1 are 1 and -1. *)
Lemma sqrt_one_mod_prime x :
  0 <= x < p -> (x * x) mod p = 1 -> x = 1 \/ x = p - 1.
Proof.
  intros Hx Hsq.
  assert (Hd : (p | (x - 1) * (x + 1))).
  { replace ((x - 1) * (x + 1)) with (x * x - 1) by ring.
    apply Zmod_divide_minus; [lia | exact Hsq]. }
  apply (Z.divide_prime_mul _ _ _ p_prime) in Hd. destruct Hd as [Hd | Hd].
  - left. apply divide_small in Hd; lia.
  - right. assert (Hd' : (p | x + 1 - p))
      by (apply Z.divide_sub_r; [exact Hd | apply Z.divide_refl]).
    apply divide_small in Hd'; lia.
Qed.

Lemma pow_unit_mod a k :
  a mod p <> 0 -> 0 <= k -> (a ^ (k * (p - 1))) mod p = 1.
Proof.
  intros Ha Hk.
  rewrite Z.mul_comm, Z.pow_mul_r by lia.
  rewrite <- pow_mod_base by lia.
  rewrite (Z.fermat_nz p a p_prime Ha), Z.pow_1_l by lia.
  apply Z.mod_1_l. lia.
Qed.

(** Fermat's little theorem, in the form RSA uses: an exponent that is
    1 modulo [p - 1] acts as the identity modulo [p], on multiples of
    [p] too. *)
Lemma pow_fermat a k :
  0 <= k -> (a ^ (1 + k * (p - 1))) mod p = a mod p.
Proof.
  intros Hk.
  rewrite Z.pow_add_r, Z.pow_1_r by nia.
  destruct (Z.eq_dec (a mod p) 0) as [Ha | Ha].
  - rewrite Z.mul_mod, Ha by lia. reflexivity.
  - rewrite Z.mul_mod, pow_unit_mod, Z.mul_1_r, Z.mod_mod by (assumption || lia).
    reflexivity.
Qed.

End PrimeModulus.

(** The RSA identity for a modulus that is the product of two distinct
    primes; [m] need not be coprime to it. *)
Lemma rsa_identity p q m t :
  Z.prime p -> Z.prime q -> p <> q -> 0 <= t ->
  (m ^ (1 + t * ((p - 1) * (q - 1)))) mod (p * q) = m mod (p * q).
Proof.
  intros Hp Hq Hpq Ht.
  pose proof (Z.prime_ge_2 p Hp). pose proof (Z.prime_ge_2 q Hq).
  set (E := 1 + t * ((p - 1) * (q - 1))).
  assert (Dp : (p | m ^ E - m)).
  { apply Z.mod_divide; [lia |].
    rewrite Zminus_mod. unfold E.
    replace (t * ((p - 1) * (q - 1))) with ((t * (q - 1)) * (p - 1)) by ring.
    rewrite pow_fermat by (assumption || nia).
    rewrite Z.sub_diag. reflexivity. }
  assert (Dq : (q | m ^ E - m)).
  { apply Z.mod_divide; [lia |].
    rewrite Zminus_mod. unfold E.
    replace (t * ((p - 1) * (q - 1))) with ((t * (p - 1)) * (q - 1)) by ring.
    rewrite pow_fermat by (assumption || nia).
    rewrite Z.sub_diag. reflexivity. }
  assert (Hco : Z.gcd q p = 1).
  { apply Z.coprime_prime_l; [exact Hq |]. intros Hd.
    apply Hpq. symmetry. apply Z.divide_prime_prime; assumption. }
  destruct Dp as [k Hk].
  assert (Dk : (q | k)).
  { apply (Z.gauss q p k); [| exact Hco]. rewrite Z.mul_comm, <- Hk. exact Dq. }
  destruct Dk as [j ->].
  replace (m ^ E) with (m + j * (p * q)) by lia.
  apply Z_mod_plus_full.
Qed.

(** ** is_prime on primes *)

(** The decomposition loop ends on [n - 1 = 2 ** r * d] with [d] odd. *)
Lemma split_twos_spec r d :
  0 < d ->
  exists r' d',
    split_twos r d = Ret (r', d') /\
    r <= r' /\ 0 < d' /\ d' mod 2 = 1 /\ d = 2 ^ (r' - r) * d'.
Proof.
  funelim (split_twos r d); intros Hd; [lia | |].
  - clear Heqcall Heq Heq0.
    pose proof (Z.div_mod d 2 ltac:(lia)) as Hdm.
    destruct H as (r' & d' & Hrun & Hr & Hd' & Hodd & Hprod); [lia |].
    exists r', d'. repeat split; try assumption; [lia |].
    replace (r' - r) with (Z.succ (r' - (r + 1))) by lia.
    rewrite Z.pow_succ_r by lia. lia.
  - clear Heqcall Heq Heq0.
    pose proof (Z.mod_pos_bound d 2 ltac:(lia)).
    exists r, d. rewrite Z.sub_diag. repeat split; try lia.
Qed.

(** A draw of [randint(a, b)] on a non-empty range lies in the range. *)
Lemma randint_value a b w :
  a <= b ->
  exists v w', randint a b w = Ret (v, w') /\ a <= v <= b.
Proof.
  intros Hab. unfold randint. destruct (Z.ltb_spec b a); [lia |].
  eexists _, _. split; [reflexivity |].
  pose proof (Z.mod_pos_bound (entropy w 0%nat) (b - a + 1)). lia.
Qed.

(** Every value of the range is a possible draw. *)
Lemma randint_onto a b v s :
  a <= v <= b ->
  run (randint a b) {| entropy := fun _ => v - a; stdout := s |} = Ret v.
Proof.
  intros Hv. unfold randint, run. destruct (Z.ltb_spec b a); [lia |].
  cbn. rewrite Z.mod_small by lia. f_equal. lia.
Qed.

Lemma modexp_square x n :
  n <> 0 -> modular_exponentiation x 2 n = Ret ((x * x) mod n).
Proof.
  intros Hn. rewrite modexp_value by lia. rewrite Z.pow_2_r. reflexivity.
Qed.

(** If [x] is neither 1 nor -1 but [x ** (2 ** (j + 1))] is 1 modulo the
    prime [n], one of the first [j] squarings of [x] is -1. *)
Lemma squarings_finds n j :
  Z.prime n ->
  forall x,
    0 <= x < n -> x <> 1 -> x <> n - 1 ->
    (x ^ (2 ^ Z.of_nat (S j))) mod n = 1 ->
    squarings j x n = Ret true.
Proof.
  intros Hn. pose proof (Z.prime_ge_2 n Hn) as Hn2.
  induction j as [| j IH]; intros x Hx H1 Hm1 Hpow.
  - exfalso. change (2 ^ Z.of_nat 1) with 2 in Hpow. rewrite Z.pow_2_r in Hpow.
    destruct (sqrt_one_mod_prime n Hn x Hx Hpow); contradiction.
  - cbn [squarings bind ret Monad_outcome]. rewrite modexp_square by lia.
    cbn [bind ret Monad_outcome].
    destruct (Z.eqb_spec ((x * x) mod n) (n - 1)) as [E | E]; [reflexivity |].
    apply IH.
    + apply Z.mod_pos_bound. lia.
    + intros Hone. destruct (sqrt_one_mod_prime n Hn x Hx Hone); contradiction.
    + exact E.
    + rewrite pow_mod_base by lia.
      rewrite <- Z.pow_2_r, <- Z.pow_mul_r by lia.
      rewrite <- Z.pow_succ_r by lia.
      rewrite <- Nat2Z.inj_succ. exact Hpow.
Qed.

(** No witness convicts a prime. *)
Lemma witness_rounds_prime n r d :
  Z.prime n -> 3 < n -> 1 <= r -> 0 < d -> n - 1 = 2 ^ r * d ->
  forall i w, exists w', witness_rounds i n r d w = Ret (true, w').
Proof.
  intros Hn H3 Hr Hd Hdec.
  induction i as [| i IH]; intros w; [eexists; reflexivity |].
  cbn [witness_rounds bind ret Monad_M].
  destruct (randint_value 2 (n - 2) w) as (a & w1 & -> & Ha); [lia |].
  rewrite modexp_value by lia. cbn [lift].
  set (x := (a ^ d) mod n).
  destruct ((x =? 1) || (x =? n - 1)) eqn:Eq; [apply IH |].
  apply orb_false_elim in Eq as [E1 E2].
  apply Z.eqb_neq in E1. apply Z.eqb_neq in E2.
  rewrite (squarings_finds n (Z.to_nat (r - 1)) Hn x); try assumption.
  - cbn [lift]. apply IH.
  - apply Z.mod_pos_bound. lia.
  - replace (Z.of_nat (S (Z.to_nat (r - 1)))) with r by lia.
    unfold x. rewrite pow_mod_base by (try apply Z.pow_nonneg; lia).
    rewrite <- Z.pow_mul_r by (try apply Z.pow_nonneg; lia).
    rewrite (Z.mul_comm d), <- Hdec.
    apply Z.fermat_nz; [exact Hn |].
    rewrite Z.mod_small; lia.
Qed.

Lemma prime_above_3_odd n : Z.prime n -> 3 < n -> n mod 2 = 1.
Proof.
  intros [_ Hn] H3.
  destruct (Z.eq_dec (n mod 2) 0) as [E | E].
  - exfalso. apply (Hn 2); [lia |]. apply Z.mod_divide; [lia | exact E].
  - pose proof (Z.mod_pos_bound n 2). lia.
Qed.

Lemma is_prime_on_prime n k w :
  Z.prime n -> exists w', is_prime n k w = Ret (true, w').
Proof.
  intros Hn. pose proof (Z.prime_ge_2 n Hn) as Hn2. unfold is_prime.
  destruct (Z.leb_spec n 1); [lia |].
  destruct (Z.leb_spec n 3); [eexists; reflexivity |].
  pose proof (prime_above_3_odd n Hn ltac:(lia)) as Hodd.
  destruct (Z.eqb_spec (n mod 2) 0); [lia |].
  destruct (split_twos_spec 0 (n - 1)) as (r & d & -> & Hr & Hd & Hdodd & Hdec);
    [lia |].
  cbn [bind ret Monad_M lift]. rewrite Z.sub_0_r in Hdec.
  apply witness_rounds_prime; try assumption; try lia.
  destruct (Z.eq_dec r 0) as [-> | Hr0]; [| lia].
  exfalso. rewrite Z.pow_0_r, Z.mul_1_l in Hdec.
  pose proof (Z.div_mod n 2). pose proof (Z.div_mod d 2). lia.
Qed.

(** C10: a prime is accepted, for every round count and every sequence of
    draws. *)
Theorem is_prime_accepts_primes n k w :
  Z.prime n -> run (is_prime n k) w = Ret true.
Proof.
  intros Hn. unfold run.
  destruct (is_prime_on_prime n k w Hn) as [w' ->]. reflexivity.
Qed.

Lemma is_prime_accepts_primes_witness :
  run (is_prime 7919 5) (tape [12; 345; 6789; 1; 7918]) = Ret true.
Proof.
  apply (is_prime_accepts_primes 7919 5 (tape [12; 345; 6789; 1; 7918])).
  apply trial_division_prime. vm_compute. reflexivity.
Defined.

(** ** generate_rsa_keys and the round trip *)

Lemma choose_e_returns fuel phi w e w' :
  choose_e fuel phi w = Ret (e, w') ->
  2 <= e <= phi - 1 /\ Z.gcd e phi = 1.
Proof.
  revert w. induction fuel as [| fuel IH]; intros w H; [discriminate |].
  cbn [choose_e bind ret Monad_M] in H.
  destruct (Z.le_gt_cases 2 (phi - 1)) as [Hphi | Hphi].
  - destruct (randint_value 2 (phi - 1) w Hphi) as (v & w1 & Hr & Hv).
    rewrite Hr in H.
    destruct (Z.eqb_spec (Z.gcd v phi) 1) as [Hg | Hg].
    + inversion H; subst. split; assumption.
    + eapply IH. exact H.
  - unfold randint in H. destruct (Z.ltb_spec (phi - 1) 2); [discriminate | lia].
Qed.

Lemma print_all_returns lines w : exists w', print_all lines w = Ret (tt, w').
Proof.
  revert w. induction lines as [| line rest IH]; intros w; [eexists; reflexivity |].
  cbn [print_all bind ret Monad_M print]. apply IH.
Qed.

(** What a returned key pair is made of. *)
Lemma generate_rsa_keys_returns fuel bits w pk sk w' :
  generate_rsa_keys fuel bits w = Ret (pk, sk, w') ->
  exists p q e x,
    generated_factors fuel bits w p q /\
    2 <= e <= (p - 1) * (q - 1) - 1 /\
    Z.gcd e ((p - 1) * (q - 1)) = 1 /\
    e * x mod ((p - 1) * (q - 1)) = 1 /\
    0 < x < (p - 1) * (q - 1) /\
    pk = (e, p * q) /\ sk = (x, p * q).
Proof.
  unfold generate_rsa_keys. cbn [bind ret Monad_M]. intros H.
  destruct (print "Generating primes..." w) as [[[] w0] | |] eqn:E0;
    try discriminate.
  destruct (generate_prime fuel (bits / 2) w0) as [[p w1] | |] eqn:Ep;
    try discriminate.
  destruct (generate_prime fuel (bits / 2) w1) as [[q w2] | |] eqn:Eq;
    try discriminate.
  cbn [print] in H.
  match type of H with context [choose_e fuel ?phi ?w3] =>
    destruct (choose_e fuel phi w3) as [[e w4] | |] eqn:Ee; try discriminate
  end.
  apply choose_e_returns in Ee as [He Hg].
  set (phi := (p - 1) * (q - 1)) in *.
  destruct (explain_extended_gcd recursion_limit e phi)
    as [[[[g x] y] steps] | |] eqn:Ex; try discriminate.
  cbn [lift] in H.
  pose proof (explain_extended_gcd_fst _ _ _ _ _ _ _ Ex) as Hfst.
  pose proof (extended_gcd_bezout _ _ _ _ _ _ Hfst) as Hbez.
  assert (Hphi0 : 0 <= phi) by lia.
  assert (Hor : 0 <= e \/ 0 < phi) by lia.
  pose proof (extended_gcd_gcd _ _ _ _ _ _ Hphi0 Hor Hfst) as Hgcd.
  rewrite Hg in Hgcd. subst g.
  rewrite py_mod_ok in H by lia. cbn [lift] in H.
  pose proof (Z.mod_pos_bound x phi ltac:(lia)) as Hd.
  destruct (Z.ltb_spec (x mod phi) 0); [lia |].
  destruct (print_all_returns steps
              {| entropy := entropy w4;
                 stdout := (stdout w4 ++ ["Steps for calculating private key:"%string])%list |})
    as [w5 Hp].
  rewrite Hp in H. inversion H; subst.
  assert (Hed : e * (x mod phi) mod phi = 1).
  { rewrite Z.mul_mod_idemp_r by lia.
    replace (e * x) with (1 + (- y) * phi) by lia.
    rewrite Z_mod_plus_full. apply Z.mod_1_l. lia. }
  exists p, q, e, (x mod phi). repeat split; try assumption; try lia.
  - exists w0, w1, w2. repeat split; assumption.
  - destruct (Z.eq_dec (x mod phi) 0) as [E | E]; [| lia].
    rewrite E, Z.mul_0_r, Z.mod_0_l in Hed by lia. discriminate.
Qed.

(** One character through encryption and decryption. *)
Lemma rsa_char_round_trip p q e d c :
  Z.prime p -> Z.prime q -> p <> q ->
  0 < e -> 0 < d -> (e * d) mod ((p - 1) * (q - 1)) = 1 ->
  0 <= c < p * q ->
  (((c ^ e) mod (p * q)) ^ d) mod (p * q) = c.
Proof.
  intros Hp Hq Hpq He Hd Hed Hc.
  pose proof (Z.prime_ge_2 p Hp). pose proof (Z.prime_ge_2 q Hq).
  set (phi := (p - 1) * (q - 1)) in *.
  assert (Hphi : 0 < phi) by (unfold phi; nia).
  rewrite pow_mod_base, <- Z.pow_mul_r by lia.
  rewrite (Z.div_mod (e * d) phi), Hed by lia.
  replace (phi * (e * d / phi) + 1) with (1 + (e * d / phi) * phi) by ring.
  unfold phi. rewrite rsa_identity; try assumption.
  - apply Z.mod_small. exact Hc.
  - apply Z.div_pos; nia.
Qed.

(** C1 (as amended): when the two primes a run of [generate_rsa_keys]
    draws are prime and different, every message whose code points are
    below [n] decrypts, under the returned private key, from its
    encryption under the returned public key. *)
Theorem rsa_round_trip fuel bits w pk sk w' message :
  generate_rsa_keys fuel bits w = Ret (pk, sk, w') ->
  (forall p q, generated_factors fuel bits w p q ->
               Z.prime p /\ Z.prime q /\ p <> q) ->
  is_str message ->
  Forall (fun c => c < snd pk) message ->
  (ciphertext <- encrypt_rsa message pk ;; decrypt_rsa ciphertext sk)
  = Ret message.
Proof.
  intros Hkeys Hprimes Hstr Hlt.
  apply generate_rsa_keys_returns in Hkeys
    as (p & q & e & d & Hgen & He & Hg & Hed & Hd & -> & ->).
  destruct (Hprimes p q Hgen) as (Hp & Hq & Hpq).
  pose proof (Z.prime_ge_2 p Hp). pose proof (Z.prime_ge_2 q Hq).
  assert (Hn : p * q <> 0) by nia.
  cbn [snd] in Hlt. unfold encrypt_rsa, ord.
  rewrite (for_each_ok _ (fun c => (c ^ e) mod (p * q))).
  2:{ apply Forall_forall. intros c _. apply modexp_value; lia. }
  cbn [bind ret Monad_outcome]. rewrite decrypt_rsa_map by exact Hn.
  f_equal. rewrite map_map.
  rewrite <- (map_id message) at 2. apply map_ext_in. intros c Hin.
  unfold is_str in Hstr. rewrite Forall_forall in Hstr, Hlt.
  specialize (Hstr c Hin). specialize (Hlt c Hin).
  destruct (Z.gtb_spec d 0); [| lia].
  rewrite (rsa_char_round_trip p q e d c) by (assumption || lia).
  unfold decoded.
  destruct (Z.leb_spec 0 c), (Z.leb_spec c 1114111); cbn; lia.
Qed.

Lemma textbook_factors p q :
  generated_factors 3 12 (tape [61; 0; 1; 2; 3; 4; 53; 0; 1; 2; 3; 4; 15]) p q ->
  Z.prime p /\ Z.prime q /\ p <> q.
Proof.
  intros (w0 & w1 & w2 & H0 & H1 & H2).
  vm_compute in H0. inversion H0; subst w0; clear H0.
  vm_compute in H1. inversion H1; subst p w1; clear H1.
  vm_compute in H2. inversion H2; subst q w2; clear H2.
  repeat split; try (apply trial_division_prime; vm_compute; reflexivity).
  discriminate.
Qed.

Lemma rsa_round_trip_witness :
  (ciphertext <- encrypt_rsa [82; 83; 65] (17, 3233) ;;
   decrypt_rsa ciphertext (2753, 3233))
  = Ret [82; 83; 65].
Proof.
  eapply (rsa_round_trip 3 12
            (tape [61; 0; 1; 2; 3; 4; 53; 0; 1; 2; 3; 4; 15])
            (17, 3233) (2753, 3233) _ [82; 83; 65]).
  - vm_compute. reflexivity.
  - exact textbook_factors.
  - repeat constructor; lia.
  - repeat constructor.
Defined.

(** C1, as stated, fails when both draws give the same prime: 5 is prime
    and can be drawn twice, [n = 25], and the character of code point 2
    comes back as code point 17. *)
Lemma rsa_round_trip_equal_primes :
  generated_factors 3 6 (tape [5; 0; 1; 2; 3; 4; 5; 0; 1; 2; 3; 4; 1]) 5 5 /\
  Z.prime 5 /\
  run (generate_rsa_keys 3 6) (tape [5; 0; 1; 2; 3; 4; 5; 0; 1; 2; 3; 4; 1])
  = Ret ((3, 25), (11, 25)) /\
  is_str [2] /\ 2 < 25 /\
  (ciphertext <- encrypt_rsa [2] (3, 25) ;; decrypt_rsa ciphertext (11, 25))
  = Ret [17].
Proof.
  split; [| split; [| split; [| split; [| split]]]].
  - unfold generated_factors. eexists _, _, _.
    split; [reflexivity |]. split.
    + vm_compute. reflexivity.
    + vm_compute. reflexivity.
  - apply trial_division_prime. vm_compute. reflexivity.
  - vm_compute. reflexivity.
  - repeat constructor; lia.
  - lia.
  - vm_compute. reflexivity.
Qed.

(** The concrete scenario of the specification. *)
Example rsa_textbook_scenario :
  run (generate_rsa_keys 3 12) (tape [61; 0; 1; 2; 3; 4; 53; 0; 1; 2; 3; 4; 15])
  = Ret ((17, 3233), (2753, 3233)) /\
  encrypt_rsa [65] (17, 3233) = Ret [2790] /\
  decrypt_rsa [2790] (2753, 3233) = Ret [65] /\
  encrypt_rsa [] (17, 3233) = Ret [].
Proof. repeat split; vm_compute; reflexivity. Qed.

(** * Further properties *)

(** ** modular_exponentiation and its diagnostic variant *)

(** One turn of the loop. *)
Lemma modexp_while_step r b e m :
  m <> 0 -> 0 < e ->
  modexp_while r b e m =
  modexp_while (if e mod 2 =? 1 then (r * b) mod m else r)
               ((b * b) mod m) (e / 2) m.
Proof.
  intros Hm He. rewrite modexp_while_equation_1 at 1.
  destruct (Z_gt_dec e 0) as [g | g]; [| lia].
  rewrite modexp_while_clause_1_equation_1.
  destruct (e mod 2 =? 1); rewrite !py_mod_ok by exact Hm; reflexivity.
Qed.

Lemma explain_modexp_while_done r b e m steps :
  e <= 0 -> explain_modexp_while r b e m steps = Ret steps.
Proof.
  intros He. rewrite explain_modexp_while_equation_1.
  destruct (Z_gt_dec e 0) as [g | g]; [lia | reflexivity].
Qed.

Lemma explain_modexp_while_step r b e m steps :
  m <> 0 -> 0 < e ->
  explain_modexp_while r b e m steps =
  (rs <- (if e mod 2 =? 1
          then shown <- fmt ((r * b) mod m) ;;
               ret ((r * b) mod m,
                    (steps ++ ["result = (result * base) % modulus = "
                               ++ shown]%string)%list)
          else ret (r, steps)) ;;
   shown_base <- fmt ((b * b) mod m) ;;
   shown_exponent <- fmt (e / 2) ;;
   explain_modexp_while (fst rs) ((b * b) mod m) (e / 2) m
     (snd rs ++ ["base = (base * base) % modulus = " ++ shown_base
                 ++ ", exponent = " ++ shown_exponent]%string)%list).
Proof.
  intros Hm He. rewrite explain_modexp_while_equation_1 at 1.
  destruct (Z_gt_dec e 0) as [g | g]; [| lia].
  rewrite explain_modexp_while_clause_1_equation_1.
  destruct (e mod 2 =? 1); rewrite !py_mod_ok by exact Hm; reflexivity.
Qed.

(** A conversion gives the digits, or fails on an integer of more than
    [max_str_digits] digits. *)
Lemma fmt_dichotomy z :
  fmt z = Ret (decimal z) \/
  fmt z = Raise ValueError /\ 10 ^ max_str_digits <= Z.abs z.
Proof.
  rewrite fmt_cases.
  destruct (Z.ltb_spec (Z.abs z) (10 ^ max_str_digits));
    [left; reflexivity | right; split; [reflexivity | assumption]].
Qed.

(** The records of a run from [exponent > 0].  When it returns they end
    on the last multiplication, which shows the value the plain loop
    returns, and on the squaring that brings the exponent to 0, and there
    are between [log2 e + 2] and [2 * log2 e + 2] of them.  It can only
    fail on a residue or a halved exponent too long to print. *)
Lemma explain_modexp_while_trace m :
  m <> 0 ->
  forall e, 0 <= e -> 0 < e ->
  forall r b steps,
  match explain_modexp_while r b e m steps with
  | Ret out =>
      exists pre B R,
        modexp_while r b e m = Ret R /\
        out = (steps ++ pre ++
               ["result = (result * base) % modulus = " ++ decimal R;
                "base = (base * base) % modulus = " ++ decimal B
                ++ ", exponent = " ++ decimal 0]%string)%list /\
        Z.log2 e <= Z.of_nat (List.length pre) <= 2 * Z.log2 e
  | Raise err =>
      err = ValueError /\
      (10 ^ max_str_digits < Z.abs m \/ 10 ^ max_str_digits <= e / 2)
  | Spin => False
  end.
Proof.
  intros Hm e He0. pattern e. apply Z_lt_induction; [| exact He0].
  clear e He0. intros e IH He r b steps.
  pose proof (Z.div_mod e 2 ltac:(lia)) as Hdm.
  pose proof (Z.mod_pos_bound e 2 ltac:(lia)) as Hbit.
  assert (Hres : forall v, Z.abs (v mod m) < Z.abs m)
    by (intros v; pose proof (Z.mod_bound_or v m Hm); lia).
  rewrite modexp_while_step, explain_modexp_while_step by assumption.
  set (L := 10 ^ max_str_digits).
  assert (Hstep :
    forall r' steps',
      match
        (shown_base <- fmt ((b * b) mod m) ;;
         shown_exponent <- fmt (e / 2) ;;
         explain_modexp_while r' ((b * b) mod m) (e / 2) m
           (steps' ++ ["base = (base * base) % modulus = " ++ shown_base
                       ++ ", exponent = " ++ shown_exponent]%string)%list)
      with
      | Ret out =>
          exists pre B R,
            modexp_while r' ((b * b) mod m) (e / 2) m = Ret R /\
            (e / 2 = 0 -> R = r') /\
            out = (steps' ++
                   ["base = (base * base) % modulus = "
                    ++ decimal ((b * b) mod m) ++ ", exponent = "
                    ++ decimal (e / 2)]%string ++ pre)%list /\
            (e / 2 = 0 -> pre = []) /\
            (0 < e / 2 ->
             exists pre',
               pre = (pre' ++
                      ["result = (result * base) % modulus = " ++ decimal R;
                       "base = (base * base) % modulus = " ++ decimal B
                       ++ ", exponent = " ++ decimal 0]%string)%list /\
               Z.log2 (e / 2) <= Z.of_nat (List.length pre') <= 2 * Z.log2 (e / 2)) /\
            (e / 2 = 0 -> B = (b * b) mod m)
      | Raise err => err = ValueError /\ (L < Z.abs m \/ L <= e / 2)
      | Spin => False
      end).
  { intros r' steps'.
    destruct (fmt_dichotomy ((b * b) mod m)) as [-> | [-> Hbig]];
      cbn [bind ret Monad_outcome].
    2:{ split; [reflexivity |]. left. specialize (Hres (b * b)). fold L in Hbig. lia. }
    destruct (fmt_dichotomy (e / 2)) as [-> | [-> Hbig]];
      cbn [bind ret Monad_outcome].
    2:{ split; [reflexivity |]. right. fold L in Hbig. lia. }
    destruct (Z.eq_dec (e / 2) 0) as [Hz | Hz].
    - rewrite explain_modexp_while_done by lia.
      exists [], ((b * b) mod m), r'.
      rewrite modexp_while_spec by exact Hm. rewrite Hz.
      change (0 >? 0) with false. cbv iota.
      repeat split; try reflexivity; lia.
    - assert (Hh : 0 < e / 2) by lia.
      specialize (IH (e / 2) ltac:(lia) Hh r' ((b * b) mod m)
                    (steps' ++ ["base = (base * base) % modulus = "
                                ++ decimal ((b * b) mod m) ++ ", exponent = "
                                ++ decimal (e / 2)]%string)%list).
      destruct (explain_modexp_while r' ((b * b) mod m) (e / 2) m _)
        as [out | err |]; [| | exact IH].
      + destruct IH as (pre & B & R & HR & -> & Hlen).
        exists (pre ++
                ["result = (result * base) % modulus = " ++ decimal R;
                 "base = (base * base) % modulus = " ++ decimal B
                 ++ ", exponent = " ++ decimal 0]%string)%list, B, R.
        split; [exact HR |]. split; [lia |]. split.
        * rewrite <- !app_assoc. reflexivity.
        * split; [lia |]. split; [| lia]. intros _. exists pre. split; [reflexivity | exact Hlen].
      + destruct IH as [-> [Hbig | Hbig]]; (split; [reflexivity |]).
        * left. exact Hbig.
        * right. fold L in Hbig.
          pose proof (Z.div_mod (e / 2) 2 ltac:(lia)).
          pose proof (Z.mod_pos_bound (e / 2) 2 ltac:(lia)). lia. }
  assert (Hlog : 0 < e / 2 -> Z.log2 e = Z.succ (Z.log2 (e / 2))).
  { intros Hh. assert (e mod 2 = 0 \/ e mod 2 = 1) as [Hb | Hb] by lia.
    - rewrite <- (Z.log2_double (e / 2)) by exact Hh. f_equal. lia.
    - rewrite <- (Z.log2_succ_double (e / 2)) by exact Hh. f_equal. lia. }
  destruct (Z.eqb_spec (e mod 2) 1) as [Hodd | Heven].
  - destruct (fmt_dichotomy ((r * b) mod m)) as [-> | [-> Hbig]];
      cbn [bind ret Monad_outcome fst snd].
    2:{ split; [reflexivity |]. left. specialize (Hres (r * b)). fold L in Hbig. lia. }
    specialize (Hstep ((r * b) mod m)
                  (steps ++ ["result = (result * base) % modulus = "
                             ++ decimal ((r * b) mod m)]%string)%list).
    cbn [bind ret Monad_outcome] in Hstep.
    match type of Hstep with match ?c with _ => _ end =>
      destruct c as [out | err |]; [| exact Hstep | exact Hstep]
    end.
    destruct Hstep as (pre & B & R & HR & HR0 & -> & Hpre0 & Hpre & HB0).
    destruct (Z.eq_dec (e / 2) 0) as [Hz | Hz].
    + exists [], B, R. split; [exact HR |]. split.
      * rewrite (Hpre0 Hz), (HR0 Hz), (HB0 Hz), Hz, app_nil_r, <- !app_assoc.
        reflexivity.
      * assert (e = 1) by lia. subst e. cbn. lia.
    + destruct (Hpre ltac:(lia)) as (pre' & -> & Hlen).
      exists (["result = (result * base) % modulus = "
               ++ decimal ((r * b) mod m);
               "base = (base * base) % modulus = " ++ decimal ((b * b) mod m)
               ++ ", exponent = " ++ decimal (e / 2)]%string ++ pre')%list, B, R.
      split; [exact HR |]. split.
      * rewrite <- !app_assoc. reflexivity.
      * rewrite length_app. cbn [List.length]. rewrite Hlog by lia. lia.
  - cbn [bind ret Monad_outcome fst snd].
    specialize (Hstep r steps).
    cbn [bind ret Monad_outcome] in Hstep.
    match type of Hstep with match ?c with _ => _ end =>
      destruct c as [out | err |]; [| exact Hstep | exact Hstep]
    end.
    destruct Hstep as (pre & B & R & HR & HR0 & -> & Hpre0 & Hpre & HB0).
    assert (Hh : 0 < e / 2) by lia.
    destruct (Hpre Hh) as (pre' & -> & Hlen).
    exists (["base = (base * base) % modulus = " ++ decimal ((b * b) mod m)
             ++ ", exponent = " ++ decimal (e / 2)]%string ++ pre')%list, B, R.
    split; [exact HR |]. split.
    + rewrite <- !app_assoc. reflexivity.
    + rewrite length_app. cbn [List.length]. rewrite Hlog by lia. lia.
Qed.
(** X1: the laws of exponents carry over to the function: powers of one
    base multiply to the power of the sum, and a power of a power is the
    power of the product. *)
Theorem modular_exponentiation_exponent_laws base e1 e2 modulus :
  modulus <> 0 -> 0 < e1 -> 0 < e2 ->
  (x <- modular_exponentiation base e1 modulus ;;
   y <- modular_exponentiation base e2 modulus ;;
   py_mod (x * y) modulus)
  = modular_exponentiation base (e1 + e2) modulus
  /\
  (x <- modular_exponentiation base e1 modulus ;;
   modular_exponentiation x e2 modulus)
  = modular_exponentiation base (e1 * e2) modulus.
Proof.
  intros Hm H1 H2. rewrite !modexp_value by (assumption || nia).
  cbn [bind ret Monad_outcome]. rewrite modexp_value, py_mod_ok by assumption.
  split; f_equal.
  - rewrite <- Z.mul_mod, <- Z.pow_add_r by lia. reflexivity.
  - rewrite pow_mod_base, <- Z.pow_mul_r by lia. reflexivity.
Qed.

Lemma modular_exponentiation_exponent_laws_witness :
  (x <- modular_exponentiation 65 17 3233 ;;
   y <- modular_exponentiation 65 5 3233 ;;
   py_mod (x * y) 3233)
  = modular_exponentiation 65 (17 + 5) 3233
  /\
  (x <- modular_exponentiation 65 17 3233 ;;
   modular_exponentiation x 5 3233)
  = modular_exponentiation 65 (17 * 5) 3233.
Proof. apply (modular_exponentiation_exponent_laws 65 17 5 3233); lia. Defined.

(** X2: the function is multiplicative in its base: the power of a
    product is the reduced product of the powers. *)
Theorem modular_exponentiation_multiplicative a b exponent modulus :
  modulus <> 0 -> 0 < exponent ->
  (x <- modular_exponentiation a exponent modulus ;;
   y <- modular_exponentiation b exponent modulus ;;
   py_mod (x * y) modulus)
  = modular_exponentiation (a * b) exponent modulus.
Proof.
  intros Hm He. rewrite !modexp_value by assumption.
  cbn [bind ret Monad_outcome]. rewrite py_mod_ok by assumption.
  rewrite <- Z.mul_mod, <- Z.pow_mul_l by lia. reflexivity.
Qed.

Lemma modular_exponentiation_multiplicative_witness :
  (x <- modular_exponentiation 5 17 3233 ;;
   y <- modular_exponentiation 13 17 3233 ;;
   py_mod (x * y) 3233)
  = modular_exponentiation (5 * 13) 17 3233.
Proof. apply (modular_exponentiation_multiplicative 5 13 17 3233); lia. Defined.

(** X3: when [explain_modular_exponentiation] returns for a positive
    exponent, its records end with the last multiplication, whose value
    is the one [modular_exponentiation] returns, followed by the squaring
    that leaves the exponent at 0. *)
Theorem explain_modular_exponentiation_agrees base exponent modulus steps :
  0 < exponent ->
  explain_modular_exponentiation base exponent modulus = Ret steps ->
  exists pre B R,
    modular_exponentiation base exponent modulus = Ret R /\
    steps =
    (pre ++
     ["result = (result * base) % modulus = " ++ decimal R;
      "base = (base * base) % modulus = " ++ decimal B
      ++ ", exponent = " ++ decimal 0]%string)%list.
Proof.
  intros He.
  unfold modular_exponentiation, explain_modular_exponentiation, py_mod.
  destruct (Z.eqb_spec modulus 0) as [Hm | Hm]; [discriminate |].
  cbn [bind ret Monad_outcome]. intros Hrun.
  pose proof (explain_modexp_while_trace modulus Hm exponent ltac:(lia) He
                1 (base mod modulus) []) as H.
  rewrite Hrun in H. destruct H as (pre & B & R & HR & -> & _).
  exists pre, B, R. split; [exact HR | reflexivity].
Qed.

Lemma explain_modular_exponentiation_agrees_witness :
  exists pre B R,
    modular_exponentiation 2 5 7 = Ret R /\
    ["result = (result * base) % modulus = 2";
     "base = (base * base) % modulus = 4, exponent = 2";
     "base = (base * base) % modulus = 2, exponent = 1";
     "result = (result * base) % modulus = 4";
     "base = (base * base) % modulus = 4, exponent = 0"]%string =
    (pre ++
     ["result = (result * base) % modulus = " ++ decimal R;
      "base = (base * base) % modulus = " ++ decimal B
      ++ ", exponent = " ++ decimal 0]%string)%list.
Proof.
  apply (explain_modular_exponentiation_agrees 2 5 7); [lia |].
  vm_compute. reflexivity.
Defined.

(** X4: every way [explain_modular_exponentiation] can end.  It raises
    [ZeroDivisionError] exactly on a zero modulus.  Otherwise it can only
    raise the [ValueError] of a record that shows an integer of more than
    4300 digits, which needs a positive exponent and a modulus above
    [10 ** 4300] or a halved exponent of at least that.  When it returns,
    there is no record for an exponent that is not positive, and
    otherwise between [log2 e + 2] and [2 * log2 e + 2] records: the loop
    runs once per bit of the exponent. *)
Theorem explain_modular_exponentiation_size base exponent modulus :
  match explain_modular_exponentiation base exponent modulus with
  | Ret steps =>
      modulus <> 0 /\
      if exponent >? 0
      then Z.log2 exponent + 2 <= Z.of_nat (List.length steps)
           <= 2 * Z.log2 exponent + 2
      else steps = []
  | Raise err =>
      err = ZeroDivisionError /\ modulus = 0 \/
      err = ValueError /\ modulus <> 0 /\ 0 < exponent /\
      (10 ^ max_str_digits < Z.abs modulus \/
       10 ^ max_str_digits <= exponent / 2)
  | Spin => False
  end.
Proof.
  unfold explain_modular_exponentiation, py_mod.
  destruct (Z.eqb_spec modulus 0) as [Hm | Hm];
    [left; split; [reflexivity | exact Hm] |].
  cbn [bind ret Monad_outcome].
  destruct (Z.gtb_spec exponent 0) as [He | He].
  - pose proof (explain_modexp_while_trace modulus Hm exponent ltac:(lia) He
                  1 (base mod modulus) []) as H.
    destruct (explain_modexp_while 1 (base mod modulus) exponent modulus [])
      as [steps | err |]; [| | exact H].
    + destruct H as (pre & B & R & _ & -> & Hlen).
      split; [exact Hm |]. cbn [app]. rewrite length_app. cbn [List.length]. lia.
    + destruct H as [-> Hbig]. right. repeat split; assumption.
  - rewrite explain_modexp_while_done by lia. split; [exact Hm | reflexivity].
Qed.

(** ** is_prime and generate_prime: what every run does *)

Lemma advance_0 w : advance 0 w = w.
Proof. destruct w. reflexivity. Qed.

Lemma randint_advance a b w :
  a <= b -> exists v, randint a b w = Ret (v, advance 1 w) /\ a <= v <= b.
Proof.
  intros Hab. unfold randint. destruct (Z.ltb_spec b a); [lia |].
  eexists. split; [reflexivity |].
  pose proof (Z.mod_pos_bound (entropy w 0%nat) (b - a + 1)). lia.
Qed.

Lemma squarings_total j n : n <> 0 -> forall x, exists b, squarings j x n = Ret b.
Proof.
  intros Hn. induction j as [| j IH]; intros x; [eexists; reflexivity |].
  cbn [squarings bind ret Monad_outcome]. rewrite modexp_square by exact Hn.
  cbn [bind ret Monad_outcome].
  destruct ((x * x) mod n =? n - 1); [eexists; reflexivity | apply IH].
Qed.

(** Each round draws once and raises nothing. *)
Lemma witness_rounds_total n r d :
  3 < n -> 0 < d ->
  forall i w, exists b j,
    (j <= i)%nat /\ witness_rounds i n r d w = Ret (b, advance j w).
Proof.
  intros Hn Hd. induction i as [| i IH]; intros w.
  - exists true, 0%nat. rewrite advance_0. split; [lia | reflexivity].
  - cbn [witness_rounds bind ret Monad_M].
    destruct (randint_advance 2 (n - 2) w) as (a & -> & Ha); [lia |].
    rewrite modexp_value by lia. cbn [lift].
    destruct (IH (advance 1 w)) as (b & j & Hj & Hrest).
    assert (Hnext : exists b' j', (j' <= S i)%nat /\
              witness_rounds i n r d (advance 1 w) = Ret (b', advance j' w)).
    { exists b, (S j). split; [lia | exact Hrest]. }
    destruct (((a ^ d) mod n =? 1) || ((a ^ d) mod n =? n - 1)); [exact Hnext |].
    destruct (squarings_total (Z.to_nat (r - 1)) n ltac:(lia) ((a ^ d) mod n))
      as [[|] ->]; cbn [lift]; [exact Hnext |].
    exists false, 1%nat. split; [lia | reflexivity].
Qed.

Lemma is_prime_total n k w :
  exists b j, (j <= Z.to_nat k)%nat /\ is_prime n k w = Ret (b, advance j w).
Proof.
  unfold is_prime.
  destruct (Z.leb_spec n 1);
    [exists false, 0%nat; rewrite advance_0; split; [lia | reflexivity] |].
  destruct (Z.leb_spec n 3);
    [exists true, 0%nat; rewrite advance_0; split; [lia | reflexivity] |].
  destruct (Z.eqb_spec (n mod 2) 0);
    [exists false, 0%nat; rewrite advance_0; split; [lia | reflexivity] |].
  destruct (split_twos_spec 0 (n - 1)) as (r & d & -> & _ & Hd & _); [lia |].
  cbn [bind ret Monad_M lift]. apply witness_rounds_total; lia.
Qed.


(** X6: with a round count that is not positive no witness is drawn, and
    every odd [n > 3], prime or not, is reported prime. *)
Theorem is_prime_without_rounds n k w :
  k <= 0 -> 3 < n -> n mod 2 = 1 -> is_prime n k w = Ret (true, w).
Proof.
  intros Hk Hn Hodd. unfold is_prime.
  destruct (Z.leb_spec n 1); [lia |].
  destruct (Z.leb_spec n 3); [lia |].
  destruct (Z.eqb_spec (n mod 2) 0); [lia |].
  destruct (split_twos_spec 0 (n - 1)) as (r & d & -> & _); [lia |].
  cbn [bind ret Monad_M lift].
  replace (Z.to_nat k) with 0%nat by lia. reflexivity.
Qed.

Lemma is_prime_without_rounds_witness :
  is_prime 9 0 (tape [4; 2]) = Ret (true, tape [4; 2]).
Proof.
  apply (is_prime_without_rounds 9 0 (tape [4; 2])); [lia | lia | reflexivity].
Defined.

Lemma generate_prime_outcome fuel bits :
  forall w,
  match generate_prime fuel bits w with
  | Ret (p, w') => 2 <= p < 2 ^ bits /\ stdout w' = stdout w
  | Raise err =>
      err = ValueError /\ - 2147483648 <= bits < 0 \/
      err = OverflowError /\ (bits < - 2147483648 \/ 2147483647 < bits)
  | Spin => True
  end.
Proof.
  induction fuel as [| fuel IH]; intros w; [exact I |].
  cbn [generate_prime bind ret Monad_M]. rewrite getrandbits_cases.
  destruct (Z.ltb_spec bits (- 2147483648)) as [Hlo | Hlo];
    [right; split; [reflexivity | lia] |].
  destruct (Z.ltb_spec 2147483647 bits) as [Hhi | Hhi];
    [right; split; [reflexivity | lia] |].
  cbn [orb].
  destruct (Z.ltb_spec bits 0) as [Hb | Hb]; [left; split; [reflexivity | lia] |].
  change {| entropy := fun i => entropy w (S i); stdout := stdout w |}
    with (advance 1 w).
  set (c := entropy w 0%nat mod 2 ^ bits).
  assert (Hc : 0 <= c < 2 ^ bits)
    by (apply Z.mod_pos_bound; apply Z.pow_pos_nonneg; lia).
  destruct (is_prime_total c 5 (advance 1 w)) as (b & j & _ & Hrun).
  rewrite Hrun. destruct b.
  - split; [| reflexivity]. split; [| lia].
    destruct (Z.le_gt_cases c 1) as [Hle | Hgt]; [| lia].
    rewrite (is_prime_rejects_le_1 c 5 _ Hle) in Hrun. discriminate.
  - specialize (IH (advance j (advance 1 w))).
    destruct (generate_prime fuel bits (advance j (advance 1 w)))
      as [[p w'] | err |]; exact IH.
Qed.


(** X8: every prime below [2 ** bits], however small, is a possible
    result of [generate_prime(bits)]: when the first [getrandbits] gives
    that prime it is returned, whatever the draws that follow. *)
Theorem generate_prime_any_prime bits p fuel w :
  Z.prime p -> 0 <= bits <= 2147483647 ->
  entropy w 0%nat mod 2 ^ bits = p ->
  run (generate_prime (S fuel) bits) w = Ret p.
Proof.
  intros Hp Hb Hdraw.
  unfold run. cbn [generate_prime bind ret Monad_M].
  rewrite getrandbits_value by exact Hb. rewrite Hdraw.
  match goal with |- context [is_prime p 5 ?w1] =>
    destruct (is_prime_on_prime p 5 w1 Hp) as [w2 ->]
  end.
  reflexivity.
Qed.

Lemma generate_prime_any_prime_witness :
  run (generate_prime 1 512) (tape [7; 0; 1; 2; 3; 4]) = Ret 7.
Proof.
  apply (generate_prime_any_prime 512 7 0 (tape [7; 0; 1; 2; 3; 4])).
  - apply trial_division_prime. vm_compute. reflexivity.
  - lia.
  - vm_compute. reflexivity.
Defined.

(** ** extended_gcd on integers of any sign *)

(** X9: a call on integers of any sign either returns [(g, x, y)] with
    [a*x + b*y = g] and [abs(g) = gcd(a, b)], or raises [RecursionError];
    it returns when [2 * log2(abs b) + 3] frames are left. *)
Theorem extended_gcd_any_sign frames a b :
  match extended_gcd frames a b with
  | Ret (g, x, y) => a * x + b * y = g /\ Z.abs g = Z.gcd a b
  | Raise err =>
      err = RecursionError /\
      (frames < 2 * Z.to_nat (Z.log2 (Z.abs b)) + 3)%nat
  | Spin => False
  end.
Proof.
  destruct (extended_gcd frames a b) as [[[g x] y] | err |] eqn:E.
  - split; [exact (extended_gcd_bezout _ _ _ _ _ _ E)
           | exact (extended_gcd_abs _ _ _ _ _ _ E)].
  - split; [exact (extended_gcd_raises frames a b err E) |].
    destruct (Nat.lt_ge_cases frames (2 * Z.to_nat (Z.log2 (Z.abs b)) + 3))
      as [Hlt | Hge]; [exact Hlt |].
    destruct (extended_gcd_returns frames a b Hge) as [r Hr].
    rewrite Hr in E. discriminate.
  - exact (extended_gcd_no_spin frames a b E).
Qed.

(** The records come innermost frame first: the base case, which shows
    the gcd, opens the list, and the record of the outermost call, which
    shows the coefficients returned, closes it. *)
Lemma explain_extended_gcd_records frames :
  forall a b g x y steps,
  explain_extended_gcd frames a b = Ret (g, x, y, steps) ->
  exists rest,
    steps = ("Base case: gcd(" ++ decimal g ++ ", " ++ decimal 0 ++ ") = "
             ++ decimal g)%string :: rest /\
    (b = 0 /\ rest = [] \/
     b <> 0 /\ exists mid,
       rest = (mid ++ ["gcd(" ++ decimal a ++ ", " ++ decimal b ++ "): x = "
                       ++ decimal x ++ ", y = " ++ decimal y]%string)%list).
Proof.
  induction frames as [| frames IH]; intros a b g x y steps E; [discriminate |].
  cbn [explain_extended_gcd bind ret Monad_outcome] in E.
  destruct (Z.eqb_spec b 0) as [Hb | Hb].
  - destruct (fmt a) as [sa | |] eqn:Fa; try discriminate.
    destruct (fmt b) as [sb | |] eqn:Fb; try discriminate.
    cbn [bind ret Monad_outcome] in E. inversion E; subst.
    apply fmt_ret in Fa, Fb. subst.
    exists []. split; [reflexivity | left; split; reflexivity].
  - destruct (explain_extended_gcd frames b (a mod b))
      as [[[[g1 x1] y1] st] | |] eqn:E1; try discriminate.
    destruct (IH _ _ _ _ _ _ E1) as (rest & -> & _).
    destruct (fmt a) as [sa | |] eqn:Fa; try discriminate.
    destruct (fmt b) as [sb | |] eqn:Fb; try discriminate.
    destruct (fmt y1) as [sx | |] eqn:Fx; try discriminate.
    destruct (fmt (x1 - a / b * y1)) as [sy | |] eqn:Fy; try discriminate.
    inversion E; subst.
    apply fmt_ret in Fa, Fb, Fx, Fy. subst.
    eexists. split; [cbn [app]; reflexivity |].
    right. split; [assumption |]. eexists. reflexivity.
Qed.

(** X10: the records a call of [explain_extended_gcd] returns are never
    empty; the first is the base case of the gcd returned, and for
    [b != 0] the last is the record of [(a, b)] with the coefficients
    returned. *)
Theorem explain_extended_gcd_trace frames a b g x y steps :
  explain_extended_gcd frames a b = Ret (g, x, y, steps) ->
  exists rest,
    steps = ("Base case: gcd(" ++ decimal g ++ ", " ++ decimal 0 ++ ") = "
             ++ decimal g)%string :: rest /\
    (b = 0 /\ rest = [] \/
     b <> 0 /\ exists mid,
       rest = (mid ++ ["gcd(" ++ decimal a ++ ", " ++ decimal b ++ "): x = "
                       ++ decimal x ++ ", y = " ++ decimal y]%string)%list).
Proof. apply explain_extended_gcd_records. Qed.

Lemma explain_extended_gcd_trace_witness :
  exists rest,
    ["Base case: gcd(1, 0) = 1"; "gcd(8, 1): x = 0, y = 1";
     "gcd(9, 8): x = 1, y = -1"; "gcd(17, 9): x = -1, y = 2"]%string
    = ("Base case: gcd(" ++ decimal 1 ++ ", " ++ decimal 0 ++ ") = "
       ++ decimal 1)%string :: rest /\
    (9 = 0 /\ rest = [] \/
     9 <> 0 /\ exists mid,
       rest = (mid ++ ["gcd(" ++ decimal 17 ++ ", " ++ decimal 9 ++ "): x = "
                       ++ decimal (-1) ++ ", y = " ++ decimal 2]%string)%list).
Proof.
  apply (explain_extended_gcd_trace 1000 17 9 1 (-1) 2).
  vm_compute. reflexivity.
Defined.

(** ** generate_rsa_keys: what every run does *)

Lemma print_all_appends lines :
  forall w,
  print_all lines w =
  Ret (tt, {| entropy := entropy w; stdout := (stdout w ++ lines)%list |}).
Proof.
  induction lines as [| line rest IH]; intros w.
  - cbn [print_all ret Monad_M]. rewrite app_nil_r. destruct w. reflexivity.
  - cbn [print_all bind ret Monad_M print]. rewrite IH. cbn [entropy stdout].
    rewrite <- app_assoc. reflexivity.
Qed.

Lemma choose_e_outcome fuel phi :
  forall w,
  match choose_e fuel phi w with
  | Ret (e, w') => 2 <= e <= phi - 1 /\ Z.gcd e phi = 1 /\ stdout w' = stdout w
  | Raise err => err = ValueError
  | Spin => True
  end.
Proof.
  induction fuel as [| fuel IH]; intros w; [exact I |].
  cbn [choose_e bind ret Monad_M].
  destruct (Z.le_gt_cases 2 (phi - 1)) as [Hphi | Hphi].
  - destruct (randint_advance 2 (phi - 1) w Hphi) as (v & -> & Hv).
    destruct (Z.eqb_spec (Z.gcd v phi) 1) as [Hg | Hg].
    + repeat split; assumption || lia.
    + specialize (IH (advance 1 w)).
      destruct (choose_e fuel phi (advance 1 w)) as [[e w'] | err |]; exact IH.
  - unfold randint. destruct (Z.ltb_spec (phi - 1) 2); [reflexivity | lia].
Qed.

(** Every way a call of [generate_rsa_keys] can end. *)
Lemma generate_rsa_keys_outcome fuel bits w :
  match generate_rsa_keys fuel bits w with
  | Ret (pk, sk, w') =>
      exists p q e x y steps,
        generated_factors fuel bits w p q /\
        2 <= p < 2 ^ (bits / 2) /\ 2 <= q < 2 ^ (bits / 2) /\
        2 <= e <= (p - 1) * (q - 1) - 1 /\
        Z.gcd e ((p - 1) * (q - 1)) = 1 /\
        explain_extended_gcd recursion_limit e ((p - 1) * (q - 1))
        = Ret (1, x, y, steps) /\
        pk = (e, p * q) /\ sk = (x mod ((p - 1) * (q - 1)), p * q) /\
        stdout w' =
        (stdout w ++
         ["Generating primes..."; "Calculating public and private keys...";
          "Steps for calculating private key:"]%string ++ steps)%list
  | Raise err =>
      err = OverflowError /\
      (bits / 2 < - 2147483648 \/ 2147483647 < bits / 2) \/
      err = ValueError \/
      err = RecursionError /\
      exists p q e,
        2 <= p < 2 ^ (bits / 2) /\ 2 <= q < 2 ^ (bits / 2) /\
        2 <= e <= (p - 1) * (q - 1) - 1 /\
        explain_extended_gcd recursion_limit e ((p - 1) * (q - 1))
        = Raise RecursionError
  | Spin => True
  end.
Proof.
  unfold generate_rsa_keys. cbn [bind ret Monad_M print].
  set (w0 := {| entropy := entropy w;
                stdout := (stdout w ++ ["Generating primes..."%string])%list |}).
  pose proof (generate_prime_outcome fuel (bits / 2) w0) as Hp.
  destruct (generate_prime fuel (bits / 2) w0) as [[p w1] | err |] eqn:Ep;
    [| | exact I].
  2:{ destruct Hp as [[-> _] | [-> Hp]]; [right; left; reflexivity |].
      left. split; [reflexivity | exact Hp]. }
  destruct Hp as [Hp Hout1].
  pose proof (generate_prime_outcome fuel (bits / 2) w1) as Hq.
  destruct (generate_prime fuel (bits / 2) w1) as [[q w2] | err |] eqn:Eq;
    [| | exact I].
  2:{ destruct Hq as [[-> _] | [-> Hq]]; [right; left; reflexivity |].
      left. split; [reflexivity | exact Hq]. }
  destruct Hq as [Hq Hout2].
  set (phi := (p - 1) * (q - 1)).
  match goal with |- context [choose_e fuel phi ?w3] =>
    pose proof (choose_e_outcome fuel phi w3) as He;
    destruct (choose_e fuel phi w3) as [[e w4] | err |]; [| | exact I]
  end.
  2:{ right; left. exact He. }
  destruct He as (He & Hg & Hout3). cbn [stdout] in Hout3.
  pose proof (explain_extended_gcd_relates recursion_limit e phi) as Hrel.
  destruct (explain_extended_gcd recursion_limit e phi)
    as [[[[g x] y] steps] | err |] eqn:Ex; cbn [lift]; [| | contradiction].
  2:{ destruct Hrel as [[-> _] | [-> _]]; [| right; left; reflexivity].
      right; right. split; [reflexivity |].
      exists p, q, e. fold phi. repeat split; assumption || lia. }
  assert (Hphi0 : 0 <= phi) by lia.
  assert (Hor : 0 <= e \/ 0 < phi) by lia.
  pose proof (extended_gcd_gcd _ _ _ _ _ _ Hphi0 Hor Hrel) as Hgcd.
  rewrite Hg in Hgcd. subst g.
  rewrite py_mod_ok by lia. cbn [lift].
  pose proof (Z.mod_pos_bound x phi ltac:(lia)) as Hd.
  destruct (Z.ltb_spec (x mod phi) 0); [lia |].
  rewrite print_all_appends. cbn [entropy stdout].
  exists p, q, e, x, y, steps. fold phi.
  repeat split; try assumption; try lia.
  - exists w0, w1, w2. repeat split; assumption.
  - rewrite Hout3, Hout2, Hout1. unfold w0. cbn [stdout].
    rewrite <- !app_assoc. reflexivity.
Qed.

(** X11: a returned key pair is well formed, whether or not the two
    factors are prime: both keys carry [n = p * q], which lies in
    [[4, 2 ** bits)], [e] is in [(1, phi)] and coprime to
    [phi = (p - 1) * (q - 1)], and [d] is the inverse of [e] modulo [phi],
    in [(0, phi)]. *)
Theorem generate_rsa_keys_key_shape fuel bits w pk sk w' :
  generate_rsa_keys fuel bits w = Ret (pk, sk, w') ->
  exists p q,
    generated_factors fuel bits w p q /\
    2 <= p /\ 2 <= q /\
    snd pk = p * q /\ snd sk = p * q /\ 4 <= p * q < 2 ^ bits /\
    1 < fst pk < (p - 1) * (q - 1) /\
    Z.gcd (fst pk) ((p - 1) * (q - 1)) = 1 /\
    0 < fst sk < (p - 1) * (q - 1) /\
    (fst pk * fst sk) mod ((p - 1) * (q - 1)) = 1.
Proof.
  intros Hrun.
  apply generate_rsa_keys_returns in Hrun
    as (p & q & e & d & Hgen & He & Hg & Hed & Hd & -> & ->).
  assert (Hpq : 2 <= p < 2 ^ (bits / 2) /\ 2 <= q < 2 ^ (bits / 2)).
  { destruct Hgen as (w0 & w1 & w2 & _ & H1 & H2).
    pose proof (generate_prime_outcome fuel (bits / 2) w0) as O1.
    pose proof (generate_prime_outcome fuel (bits / 2) w1) as O2.
    rewrite H1 in O1. rewrite H2 in O2. split; [apply O1 | apply O2]. }
  destruct Hpq as [Hp' Hq'].
  exists p, q. cbn [fst snd]. repeat split; try assumption; try lia; try nia.
  assert (Hh : 0 <= bits / 2).
  { destruct (Z.le_gt_cases 0 (bits / 2)) as [H | H]; [exact H |].
    rewrite Z.pow_neg_r in Hp' by lia. lia. }
  assert (Hle : 2 ^ (bits / 2) * 2 ^ (bits / 2) <= 2 ^ bits).
  { rewrite <- Z.pow_add_r by lia. apply Z.pow_le_mono_r; [lia |].
    pose proof (Z.div_mod bits 2 ltac:(lia)).
    pose proof (Z.mod_pos_bound bits 2 ltac:(lia)). lia. }
  nia.
Qed.

Lemma generate_rsa_keys_key_shape_witness :
  exists p q,
    generated_factors 3 12
      (tape [61; 0; 1; 2; 3; 4; 53; 0; 1; 2; 3; 4; 15]) p q /\
    2 <= p /\ 2 <= q /\
    snd (17, 3233) = p * q /\ snd (2753, 3233) = p * q /\
    4 <= p * q < 2 ^ 12 /\
    1 < fst (17, 3233) < (p - 1) * (q - 1) /\
    Z.gcd (fst (17, 3233)) ((p - 1) * (q - 1)) = 1 /\
    0 < fst (2753, 3233) < (p - 1) * (q - 1) /\
    (fst (17, 3233) * fst (2753, 3233)) mod ((p - 1) * (q - 1)) = 1.
Proof.
  eapply (generate_rsa_keys_key_shape 3 12
            (tape [61; 0; 1; 2; 3; 4; 53; 0; 1; 2; 3; 4; 15])
            (17, 3233) (2753, 3233) _).
  vm_compute. reflexivity.
Defined.


(** X13: a width of 4 or 5 gives primes of two bits, 2 or 3, and no
    usable key: the call raises [ValueError] (no [e] exists when one
    factor is 2), or keeps searching, or returns the pair
    [((3, 9), (3, 9))] built on [p = q = 3]. *)
Theorem generate_rsa_keys_two_bit_primes fuel bits w :
  4 <= bits < 6 ->
  match generate_rsa_keys fuel bits w with
  | Ret (pk, sk, _) => pk = (3, 9) /\ sk = (3, 9)
  | Raise err => err = ValueError
  | Spin => True
  end.
Proof.
  intros Hb. pose proof (generate_rsa_keys_outcome fuel bits w) as H.
  assert (Hh : bits / 2 = 2).
  { pose proof (Z.div_mod bits 2 ltac:(lia)).
    pose proof (Z.mod_pos_bound bits 2 ltac:(lia)). lia. }
  rewrite Hh in H. change (2 ^ 2) with 4 in H.
  destruct (generate_rsa_keys fuel bits w) as [[[pk sk] w'] | err |];
    [| | exact I].
  - destruct H as (p & q & e & x & y & steps & _ & Hp & Hq & He & Hg & Hx
                   & -> & -> & _).
    assert (p = 2 \/ p = 3) as [-> | ->] by lia;
      assert (q = 2 \/ q = 3) as [-> | ->] by lia;
      cbn in He; try lia.
    assert (e = 2 \/ e = 3) as [-> | ->] by lia; [discriminate Hg |].
    vm_compute in Hx. inversion Hx; subst. split; reflexivity.
  - destruct H as [[_ H] | [H | [_ (p & q & e & Hp & Hq & He & Hx)]]];
      [lia | exact H |].
    exfalso.
    assert (p = 2 \/ p = 3) as [-> | ->] by lia;
      assert (q = 2 \/ q = 3) as [-> | ->] by lia;
      cbn in He; try lia.
    assert (e = 2 \/ e = 3) as [-> | ->] by lia;
      vm_compute in Hx; discriminate.
Qed.

Lemma generate_rsa_keys_two_bit_primes_witness :
  match generate_rsa_keys 2 4 (tape [3; 3; 1]) with
  | Ret (pk, sk, _) => pk = (3, 9) /\ sk = (3, 9)
  | Raise err => err = ValueError
  | Spin => True
  end.
Proof. apply (generate_rsa_keys_two_bit_primes 2 4 (tape [3; 3; 1])). lia. Defined.

(** X14: a successful call prints the three fixed lines and the records
    of [explain_extended_gcd(e, phi)], nothing else; so the last line on
    the console shows [phi] and the coefficient [x] from which the
    private exponent is [x % phi]. *)
Theorem generate_rsa_keys_console fuel bits w pk sk w' :
  generate_rsa_keys fuel bits w = Ret (pk, sk, w') ->
  exists p q x y steps shown,
    generated_factors fuel bits w p q /\
    explain_extended_gcd recursion_limit (fst pk) ((p - 1) * (q - 1))
    = Ret (1, x, y, steps) /\
    stdout w' =
    (stdout w ++
     ["Generating primes..."; "Calculating public and private keys...";
      "Steps for calculating private key:"]%string ++ steps)%list /\
    stdout w' =
    (shown ++
     ["gcd(" ++ decimal (fst pk) ++ ", " ++ decimal ((p - 1) * (q - 1))
      ++ "): x = " ++ decimal x ++ ", y = " ++ decimal y]%string)%list /\
    fst sk = x mod ((p - 1) * (q - 1)).
Proof.
  intros Hrun. pose proof (generate_rsa_keys_outcome fuel bits w) as H.
  rewrite Hrun in H.
  destruct H as (p & q & e & x & y & steps & Hgen & _ & _ & He & _ & Hx
                 & -> & -> & Hout).
  cbn [fst].
  destruct (explain_extended_gcd_records _ _ _ _ _ _ _ Hx)
    as (rest & Hsteps & [[Hz _] | [_ [mid Hmid]]]); [lia |].
  exists p, q, x, y, steps. eexists.
  split; [exact Hgen |]. split; [exact Hx |]. split; [exact Hout |].
  split; [| reflexivity].
  rewrite Hout, Hsteps, Hmid. rewrite app_comm_cons, !app_assoc. reflexivity.
Qed.

Lemma generate_rsa_keys_console_witness :
  exists w' p q x y steps shown,
    generated_factors 3 12
      (tape [61; 0; 1; 2; 3; 4; 53; 0; 1; 2; 3; 4; 15]) p q /\
    explain_extended_gcd recursion_limit (fst (17, 3233)) ((p - 1) * (q - 1))
    = Ret (1, x, y, steps) /\
    stdout w' =
    (stdout (tape [61; 0; 1; 2; 3; 4; 53; 0; 1; 2; 3; 4; 15]) ++
     ["Generating primes..."; "Calculating public and private keys...";
      "Steps for calculating private key:"]%string ++ steps)%list /\
    stdout w' =
    (shown ++
     ["gcd(" ++ decimal (fst (17, 3233)) ++ ", "
      ++ decimal ((p - 1) * (q - 1))
      ++ "): x = " ++ decimal x ++ ", y = " ++ decimal y]%string)%list /\
    fst (2753, 3233) = x mod ((p - 1) * (q - 1)).
Proof.
  eexists.
  eapply (generate_rsa_keys_console 3 12
            (tape [61; 0; 1; 2; 3; 4; 53; 0; 1; 2; 3; 4; 15])
            (17, 3233) (2753, 3233) _).
  vm_compute. reflexivity.
Defined.

(** ** encrypt_rsa and decrypt_rsa: shapes, failures and composition *)

Lemma encrypt_rsa_map e n message :
  n <> 0 ->
  encrypt_rsa message (e, n) =
  Ret (map (fun c => if e >? 0 then (c ^ e) mod n else 1) message).
Proof.
  intros Hn. unfold encrypt_rsa, ord. apply for_each_ok.
  apply Forall_forall. intros c _. rewrite modexp_cases.
  destruct (Z.eqb_spec n 0); [lia |]. destruct (e >? 0); reflexivity.
Qed.

(** X15: with [n > 1] encryption returns one integer per character, in
    input order, each in [[0, n)]. *)
Theorem encrypt_rsa_shape message e n :
  1 < n ->
  exists ciphertext,
    encrypt_rsa message (e, n) = Ret ciphertext /\
    List.length ciphertext = List.length message /\
    Forall (fun c => 0 <= c < n) ciphertext /\
    Forall2 (fun char c => modular_exponentiation (ord char) e n = Ret c)
            message ciphertext.
Proof.
  intros Hn. eexists. split; [apply encrypt_rsa_map; lia |].
  split; [apply length_map |]. split.
  - apply Forall_forall. intros c Hin. apply in_map_iff in Hin.
    destruct Hin as (m & <- & _).
    destruct (e >? 0); [apply Z.mod_pos_bound |]; lia.
  - induction message as [| m l IH]; cbn [map]; constructor; [| exact IH].
    unfold ord. rewrite modexp_cases.
    destruct (Z.eqb_spec n 0); [lia |]. destruct (e >? 0); reflexivity.
Qed.

Lemma encrypt_rsa_shape_witness :
  exists ciphertext,
    encrypt_rsa [82; 83; 65] (17, 3233) = Ret ciphertext /\
    List.length ciphertext = List.length [82; 83; 65] /\
    Forall (fun c => 0 <= c < 3233) ciphertext /\
    Forall2 (fun char c => modular_exponentiation (ord char) 17 3233 = Ret c)
            [82; 83; 65] ciphertext.
Proof. apply (encrypt_rsa_shape [82; 83; 65] 17 3233). lia. Defined.

(** X16: the two functions fail only through a modulus of 0, with
    [ZeroDivisionError] and only on non-empty input; with any other
    modulus, negative ones included, and any exponent they return. *)
Theorem cipher_failures e n inputs :
  match encrypt_rsa inputs (e, n) with
  | Ret _ => n <> 0 \/ inputs = []
  | Raise err => err = ZeroDivisionError /\ n = 0 /\ inputs <> []
  | Spin => False
  end /\
  match decrypt_rsa inputs (e, n) with
  | Ret _ => n <> 0 \/ inputs = []
  | Raise err => err = ZeroDivisionError /\ n = 0 /\ inputs <> []
  | Spin => False
  end.
Proof.
  destruct (Z.eq_dec n 0) as [-> | Hn].
  - destruct inputs as [| c l]; split; cbn;
      try (right; reflexivity); repeat split; discriminate.
  - rewrite encrypt_rsa_map, decrypt_rsa_map by exact Hn.
    split; left; exact Hn.
Qed.

(** X17: under the conditions of the round trip but for characters of
    any size, decryption of the encryption gives each character modulo
    [n]: a code point of [n] or more comes back as another character. *)
Theorem rsa_round_trip_aliases fuel bits w pk sk w' message :
  generate_rsa_keys fuel bits w = Ret (pk, sk, w') ->
  (forall p q, generated_factors fuel bits w p q ->
               Z.prime p /\ Z.prime q /\ p <> q) ->
  is_str message ->
  (ciphertext <- encrypt_rsa message pk ;; decrypt_rsa ciphertext sk)
  = Ret (map (fun c => c mod snd pk) message).
Proof.
  intros Hkeys Hprimes Hstr.
  apply generate_rsa_keys_returns in Hkeys
    as (p & q & e & d & Hgen & He & Hg & Hed & Hd & -> & ->).
  destruct (Hprimes p q Hgen) as (Hp & Hq & Hpq).
  pose proof (Z.prime_ge_2 p Hp). pose proof (Z.prime_ge_2 q Hq).
  assert (Hn : 0 < p * q) by nia.
  rewrite encrypt_rsa_map by lia. cbn [bind ret Monad_outcome snd].
  rewrite decrypt_rsa_map by lia. f_equal. rewrite map_map.
  apply map_ext_in. intros c Hin.
  unfold is_str in Hstr. rewrite Forall_forall in Hstr. specialize (Hstr c Hin).
  destruct (Z.gtb_spec e 0); [| lia]. destruct (Z.gtb_spec d 0); [| lia].
  rewrite <- (pow_mod_base c e) by lia.
  pose proof (Z.mod_pos_bound c (p * q) Hn) as Hm.
  pose proof (Z.mod_le c (p * q) ltac:(lia) Hn) as Hle.
  rewrite (rsa_char_round_trip p q e d (c mod (p * q))) by (assumption || lia).
  unfold decoded.
  destruct (Z.leb_spec 0 (c mod (p * q))),
           (Z.leb_spec (c mod (p * q)) 1114111); cbn; lia.
Qed.

Lemma rsa_round_trip_aliases_witness :
  (ciphertext <- encrypt_rsa [65; 3300] (17, 3233) ;;
   decrypt_rsa ciphertext (2753, 3233))
  = Ret (map (fun c => c mod snd (17, 3233)) [65; 3300]).
Proof.
  eapply (rsa_round_trip_aliases 3 12
            (tape [61; 0; 1; 2; 3; 4; 53; 0; 1; 2; 3; 4; 15])
            (17, 3233) (2753, 3233) _ [65; 3300]).
  - vm_compute. reflexivity.
  - exact textbook_factors.
  - repeat constructor; lia.
Defined.

(** X18: the two keys are interchangeable: what is encrypted under the
    private key decrypts under the public key, under the conditions of
    the round trip. *)
Theorem rsa_round_trip_reversed fuel bits w pk sk w' message :
  generate_rsa_keys fuel bits w = Ret (pk, sk, w') ->
  (forall p q, generated_factors fuel bits w p q ->
               Z.prime p /\ Z.prime q /\ p <> q) ->
  is_str message ->
  Forall (fun c => c < snd sk) message ->
  (signature <- encrypt_rsa message sk ;; decrypt_rsa signature pk)
  = Ret message.
Proof.
  intros Hkeys Hprimes Hstr Hlt.
  apply generate_rsa_keys_returns in Hkeys
    as (p & q & e & d & Hgen & He & Hg & Hed & Hd & -> & ->).
  destruct (Hprimes p q Hgen) as (Hp & Hq & Hpq).
  pose proof (Z.prime_ge_2 p Hp). pose proof (Z.prime_ge_2 q Hq).
  assert (Hn : 0 < p * q) by nia.
  cbn [snd] in Hlt.
  rewrite encrypt_rsa_map by lia. cbn [bind ret Monad_outcome].
  rewrite decrypt_rsa_map by lia. f_equal. rewrite map_map.
  rewrite <- (map_id message) at 2. apply map_ext_in. intros c Hin.
  unfold is_str in Hstr. rewrite Forall_forall in Hstr, Hlt.
  specialize (Hstr c Hin). specialize (Hlt c Hin).
  destruct (Z.gtb_spec e 0); [| lia]. destruct (Z.gtb_spec d 0); [| lia].
  rewrite (rsa_char_round_trip p q d e c)
    by (assumption || lia || (rewrite Z.mul_comm; exact Hed)).
  unfold decoded.
  destruct (Z.leb_spec 0 c), (Z.leb_spec c 1114111); cbn; lia.
Qed.

Lemma rsa_round_trip_reversed_witness :
  (signature <- encrypt_rsa [82; 83; 65] (2753, 3233) ;;
   decrypt_rsa signature (17, 3233))
  = Ret [82; 83; 65].
Proof.
  eapply (rsa_round_trip_reversed 3 12
            (tape [61; 0; 1; 2; 3; 4; 53; 0; 1; 2; 3; 4; 15])
            (17, 3233) (2753, 3233) _ [82; 83; 65]).
  - vm_compute. reflexivity.
  - exact textbook_factors.
  - repeat constructor; lia.
  - repeat constructor.
Defined.
